(** * video-search-poc: transcript chunking and the similarity index

    A shallow embedding of [transcript_processor.py] (the dataclass
    [TranscriptChunk] and [TranscriptProcessor.chunk_transcript]) and of
    [search_engine.py] (class [VideoSearchEngine]), with the properties of
    the specification stated over them.

    Numbers.  Python floats (segment and chunk times, vector components,
    scores) are modelled as rationals [Q]: no NaN, no infinities.  Sums,
    differences and products are exact; the floor division and the remainder
    of [_format_timestamp] are rounded as CPython rounds them.  Every time
    that the code copies from one place to another is copied here as well, so
    equalities between times are Leibniz equalities.

    Strings.  Python [str] is modelled as [string]; [str.strip] removes the
    ASCII white space characters that [str.isspace] accepts. *)

From Stdlib Require Import String Ascii List Bool Arith ZArith QArith Lia Lqa.
From Stdlib Require Import Sorting.Sorted Sorting.Permutation.
From Stdlib Require Qround Qcanon DecimalString.
Import ListNotations.

Local Open Scope Q_scope.

(** ** Python helpers *)

(** Truth value of a list: [if xs:] holds exactly for a non-empty list. *)
Definition truthy {A : Type} (xs : list A) : bool :=
  match xs with
  | [] => false
  | _ :: _ => true
  end.

(** [a > b] on numbers. *)
Definition Qgtb (a b : Q) : bool := negb (Qle_bool a b).

(** [str.isspace] on one ASCII character: TAB, LF, VT, FF, CR, the four
    separators FS, GS, RS, US, and the space. *)
Definition isspace (c : ascii) : bool :=
  let n := nat_of_ascii c in
  ((9 <=? n)%nat && (n <=? 13)%nat) || ((28 <=? n)%nat && (n <=? 32)%nat).

Fixpoint lstrip (s : string) : string :=
  match s with
  | EmptyString => EmptyString
  | String c r => if isspace c then lstrip r else s
  end.

Fixpoint rstrip (s : string) : string :=
  match s with
  | EmptyString => EmptyString
  | String c r =>
      match rstrip r with
      | EmptyString => if isspace c then EmptyString else String c EmptyString
      | r' => String c r'
      end
  end.

(** [s.strip()] *)
Definition strip (s : string) : string := lstrip (rstrip s).

(** [sep.join(xs)] is [String.concat sep xs]. *)
Definition join (sep : string) (xs : list string) : string := String.concat sep xs.

(** ** transcript_processor.py *)

(** A one-dimensional [np.ndarray] of floats. *)
Definition ndarray : Type := list Q.

(** [@dataclass class TranscriptChunk] *)
Record TranscriptChunk : Type := mkChunk {
  video_id : string;
  start_time : Q;
  end_time : Q;
  text : string;
  embedding : option ndarray
}.

(** A Whisper segment: the dict entries ["start"], ["end"] and ["text"]. *)
Record Segment : Type := mkSegment {
  seg_start : Q;
  seg_end : Q;
  seg_text : string
}.

Module TranscriptProcessor.

(** The local variables that the loop of [chunk_transcript] updates. *)
Record locals : Type := mkLocals {
  chunks : list TranscriptChunk;
  current_chunk_text : list string;
  current_start_time : Q
}.

(** One iteration of [for segment in segments:]. *)
Definition loop_body (vid : string) (chunk_duration : Q)
    (st : locals) (segment : Segment) : locals :=
  let segment_start := seg_start segment in
  let segment_end := seg_end segment in
  let segment_text := strip (seg_text segment) in
  if Qgtb (segment_end - current_start_time st) chunk_duration
     && truthy (current_chunk_text st)
  then
    let chunk := mkChunk vid (current_start_time st) segment_start
                         (join " " (current_chunk_text st)) None in
    mkLocals (chunks st ++ [chunk]) [segment_text] segment_start
  else
    mkLocals (chunks st) (current_chunk_text st ++ [segment_text])
             (current_start_time st).

(** The state before the loop. *)
Definition loop_init (segments : list Segment) : locals :=
  mkLocals [] []
    (match segments with
     | s :: _ => seg_start s
     | [] => 0
     end).

(** [segments[-1]["end"] if segments else 0.0] *)
Definition last_end (segments : list Segment) : Q :=
  last (map seg_end segments) 0.

(** The code after the loop: "Add the last chunk". *)
Definition add_last_chunk (vid : string) (segments : list Segment)
    (st : locals) : list TranscriptChunk :=
  if truthy (current_chunk_text st)
  then chunks st ++ [mkChunk vid (current_start_time st) (last_end segments)
                             (join " " (current_chunk_text st)) None]
  else chunks st.

(** [TranscriptProcessor.chunk_transcript(segments, video_id, chunk_duration)] *)
Definition chunk_transcript (segments : list Segment) (vid : string)
    (chunk_duration : Q) : list TranscriptChunk :=
  add_last_chunk vid segments
    (fold_left (loop_body vid chunk_duration) segments (loop_init segments)).

(** [self.embedding_model.encode(texts)]: one row for each text. *)
Definition encode (model : string -> ndarray) (texts : list string) : list ndarray :=
  map model texts.

(** [chunk.embedding = embedding] *)
Definition set_embedding (c : TranscriptChunk) (e : ndarray) : TranscriptChunk :=
  mkChunk (video_id c) (start_time c) (end_time c) (text c) (Some e).

(** [for chunk, embedding in zip(chunks, embeddings):
    chunk.embedding = embedding]; [zip] stops at the end of the shorter list
    and the chunks behind it stay as they are. *)
Fixpoint assign_embeddings (cs : list TranscriptChunk) (embeddings : list ndarray)
    : list TranscriptChunk :=
  match cs, embeddings with
  | c :: cs', e :: es => set_embedding c e :: assign_embeddings cs' es
  | _, _ => cs
  end.

(** [TranscriptProcessor.embed_chunks(chunks)].  The method updates the
    chunk objects in place and returns the list it was given; here it
    returns the updated chunks. *)
Definition embed_chunks (model : string -> ndarray) (cs : list TranscriptChunk)
    : list TranscriptChunk :=
  let texts := map text cs in
  let embeddings := encode model texts in
  assign_embeddings cs embeddings.

(** [TranscriptProcessor.process_video(video_path, video_id)], with
    [whisper] the segments that the Whisper model returns for a path. *)
Definition process_video (whisper : string -> list Segment)
    (model : string -> ndarray) (video_path vid : string) : list TranscriptChunk :=
  let segments := whisper video_path in
  let cs := chunk_transcript segments vid 30 in
  embed_chunks model cs.

End TranscriptProcessor.

(** ** transcript_processor.py, the mock data *)

(** [mock_data] of [generate_mock_transcripts]: for each video its id and
    the [start_time], [end_time] and [text] of its chunks. *)
Definition mock_data : list (string * list (Q * Q * string)) :=
  [("video_001"%string,
    [(0, 30, "Welcome to our tutorial on machine learning basics. In this video, we'll cover the fundamentals of supervised learning algorithms."%string);
     (30, 60, "Let's start with linear regression. This is one of the simplest and most widely used machine learning algorithms for prediction."%string);
     (60, 90, "Next, we'll discuss classification problems and how logistic regression can help us solve them effectively."%string)]);
   ("video_002"%string,
    [(0, 30, "Today we're going to explore deep learning and neural networks. These powerful tools have revolutionized artificial intelligence."%string);
     (30, 60, "We'll start with the basic structure of a neural network, including input layers, hidden layers, and output layers."%string);
     (60, 90, "Understanding backpropagation is crucial for training neural networks. Let me explain how this algorithm works."%string)]);
   ("video_003"%string,
    [(0, 30, "In this video, we'll discuss natural language processing techniques and how to build chatbots using modern NLP libraries."%string);
     (30, 60, "We'll cover tokenization, word embeddings, and how to use transformers for text classification tasks."%string);
     (60, 90, "Finally, let's look at how to deploy your NLP models in production and handle real-world text data."%string)])].

(** [generate_mock_transcripts()]: the two loops build [all_chunks], which
    is then embedded. *)
Definition generate_mock_transcripts (model : string -> ndarray)
    : list TranscriptChunk :=
  let all_chunks :=
    flat_map (fun video_data =>
                map (fun chunk_data =>
                       mkChunk (fst video_data) (fst (fst chunk_data))
                               (snd (fst chunk_data)) (snd chunk_data) None)
                    (snd video_data))
             mock_data in
  TranscriptProcessor.embed_chunks model all_chunks.

(** ** main.py, the commands of the interactive loop *)

Module Main.

(** [str.lower] on one ASCII character. *)
Definition lower_ascii (c : ascii) : ascii :=
  let n := nat_of_ascii c in
  if ((65 <=? n) && (n <=? 90))%nat then ascii_of_nat (n + 32) else c.

(** [s.lower()] *)
Fixpoint lower (s : string) : string :=
  match s with
  | EmptyString => EmptyString
  | String c r => String (lower_ascii c) (lower r)
  end.

(** [s.split(" ", 1)]: the text in front of the first space and the text
    behind it, or [s] alone when it holds no space. *)
Fixpoint split_once (s : string) : list string :=
  match s with
  | EmptyString => [EmptyString]
  | String c r =>
      if Ascii.eqb c " " then [EmptyString; r]
      else match split_once r with
           | a :: rest => String c a :: rest
           | [] => [String c EmptyString]
           end
  end.

(** The branch of the loop body that a command takes. *)
Inductive command : Type :=
| Quit                         (* "quit" or "exit": leave the loop *)
| Help                         (* print_help() *)
| ListVideos                   (* the "list" branch *)
| Video (video_id : string)    (* get_video_summary(video_id) and what follows *)
| VideoUsage                   (* "Usage: video <video_id>" *)
| Search (query : string)      (* search(query, top_k=5) *)
| SearchUsage                  (* "Usage: search <query>" *)
| Unknown.                     (* "Unknown command" *)

(** [command = input(...).strip().lower()] and the chain of tests on it. *)
Definition dispatch (line : string) : command :=
  let command := lower (strip line) in
  if String.eqb command "quit" || String.eqb command "exit" then Quit
  else if String.eqb command "help" then Help
  else if String.eqb command "list" then ListVideos
  else if String.prefix "video " command then
    match split_once command with
    | [_; video_id] => Video video_id
    | _ => VideoUsage
    end
  else if String.prefix "search " command then
    match split_once command with
    | [_; query] => Search query
    | _ => SearchUsage
    end
  else Unknown.

End Main.

(** ** Exceptions

    Python exceptions, as the calling code sees them.  A method of the
    engine runs on the engine object and may update it before it raises, so a
    computation returns the engine it leaves behind together with its
    outcome. *)

Inductive exn : Type :=
| ValueError      (* numpy: the rows of the batch have different lengths;
                     [max] of an empty sequence *)
| AssertionError  (* faiss: [assert d == self.d], [assert k > 0] *)
| TypeError       (* faiss: [IndexFlatIP(None)] *)
| AttributeError  (* a method called on [None] *)
| IndexError.     (* list index out of range *)

Inductive outcome (A : Type) : Type :=
| Ok (a : A)
| Raise (e : exn).

Arguments Ok {A} a.
Arguments Raise {A} e.

Definition obind {A B : Type} (o : outcome A) (f : A -> outcome B) : outcome B :=
  match o with
  | Ok a => f a
  | Raise e => Raise e
  end.

(** [xs[i]] on a Python list: a negative index counts from the end. *)
Definition getitem {A : Type} (xs : list A) (i : Z) : outcome A :=
  let n := Z.of_nat (length xs) in
  let j := (if i <? 0 then n + i else i)%Z in
  if ((0 <=? j) && (j <? n))%Z
  then match nth_error xs (Z.to_nat j) with
       | Some x => Ok x
       | None => Raise IndexError
       end
  else Raise IndexError.

(** [max(xs)] for a non-empty sequence [x :: xs]: the first greatest
    element.  ([max] of an empty sequence raises [ValueError].) *)
Definition py_max (x : Q) (xs : list Q) : Q :=
  fold_left (fun m y => if Qgtb y m then y else m) xs x.

(** [int(x)] for a float [x]: the integer part, rounded towards zero. *)
Definition py_int (x : Q) : Z := Z.quot (Qnum x) (Zpos (Qden x)).

(** *** Floor division and remainder of floats

    The two operations of [_format_timestamp] are spelt out as CPython
    computes them on binary64 numbers, with the rounding of every
    intermediate result: what they round decides the digits of a time
    stamp. *)

(** [floor(log2 |x|)] for [x <> 0]. *)
Definition binade (x : Q) : Z :=
  let a := Z.abs (Qnum x) in
  let b := Zpos (Qden x) in
  let e := (Z.log2 a - Z.log2 b)%Z in
  if (if 0 <=? e then a <? b * 2 ^ e else a * 2 ^ (- e) <? b)%Z
  then (e - 1)%Z else e.

(** The integer nearest to [x], the even one of two nearest ones. *)
Definition round_half_even (x : Q) : Z :=
  let f := Qround.Qfloor x in
  match Qcompare (x - inject_Z f) (1 # 2) with
  | Lt => f
  | Gt => (f + 1)%Z
  | Eq => if Z.even f then f else (f + 1)%Z
  end.

(** The binary64 number nearest to [x]: 53 significant bits, a tie goes to
    the even one.  ([x] is taken in lowest terms; the magnitude of [x] is
    that of a normal number, as it is for every number rounded below.) *)
Definition float64 (x : Q) : Q :=
  let x := Qred x in
  if Qeq_bool x 0 then 0
  else
    let e := (binade x - 52)%Z in
    if (0 <=? e)%Z
    then inject_Z (round_half_even (x / inject_Z (2 ^ e)) * 2 ^ e)
    else inject_Z (round_half_even (x * inject_Z (2 ^ (- e)))) / inject_Z (2 ^ (- e)).

(** C's [fmod(x, y)]: the exact remainder, with the sign of [x]. *)
Definition fmod (x y : Q) : Q := x - y * inject_Z (py_int (x / y)).

(** [x % y] on floats, [y] not zero (CPython, [float_rem]):
    [mod = fmod(vx, wx); if (mod) { if ((wx < 0) != (mod < 0)) mod += wx; }
     else mod = copysign(0.0, wx);] *)
Definition float_rem (x y : Q) : Q :=
  let m := fmod x y in
  if Qeq_bool m 0 then 0
  else if xorb (Qgtb 0 y) (Qgtb 0 m) then float64 (m + y) else m.

(** [x // y] on floats, [y] not zero (CPython, [float_floor_div]):
    [mod = fmod(vx, wx); div = (vx - mod) / wx;
     if (mod) { if ((wx < 0) != (mod < 0)) div -= 1.0; }
     if (div) { floordiv = floor(div);
                if (div - floordiv > 0.5) floordiv += 1.0; }
     else floordiv = copysign(0.0, vx / wx);] *)
Definition float_floor_div (x y : Q) : Q :=
  let m := fmod x y in
  let div := float64 (float64 (x - m) / y) in
  let div :=
    if negb (Qeq_bool m 0) && xorb (Qgtb 0 y) (Qgtb 0 m)
    then float64 (div - 1) else div in
  if Qeq_bool div 0 then 0
  else
    let floordiv := inject_Z (Qround.Qfloor div) in
    if Qgtb (float64 (div - floordiv)) (1 # 2) then float64 (floordiv + 1)
    else floordiv.

(** [format(n, "02d")] *)
Definition format_02d (n : Z) : string :=
  let s := DecimalString.NilZero.string_of_int (Z.to_int n) in
  if (String.length s <? 2)%nat then String "0" s else s.

(** ** numpy and faiss, as far as the engine uses them

    [np.array(rows)] of one-dimensional arrays is a matrix when all the rows
    have one length and fails with [ValueError] otherwise.  A matrix is kept
    as the list of its rows; its second dimension is the length of a row.

    [faiss.IndexFlatIP(d)] is the exact inner-product index of the faiss
    library: it stores the added vectors in the order they are added;
    [add] and [search] assert that the width of their argument is [d];
    [search(x, k)] asserts [k > 0] and returns, for the single query row,
    [k] scores and [k] labels: the stored vectors in decreasing order of
    inner product with the query, and when fewer than [k] vectors are stored
    the remaining places hold the label [-1] and the score [-FLT_MAX].

    The order among stored vectors of equal score is decided by the
    library's result heap and is not part of its interface (it need not be
    the order of the positions, and it need not be the same for two values
    of [k]).  It is a parameter of the model, [TieOrder]: the rank of a
    position among the positions of its score, given [k] and the scores of
    all stored vectors; of equal scores the lower rank comes first, of equal
    ranks the earlier position. *)

Definition np_array (rows : list ndarray) : outcome (list ndarray) :=
  match rows with
  | [] => Ok []
  | r :: rs =>
      if forallb (fun v => (length v =? length r)%nat) rs
      then Ok rows
      else Raise ValueError
  end.

Module faiss.

Record IndexFlatIP : Type := mkIndex {
  d : nat;
  xb : list ndarray
}.

Definition new (dim : nat) : IndexFlatIP := mkIndex dim [].

Definition ntotal (ix : IndexFlatIP) : nat := length (xb ix).

(** [n, d = x.shape; assert d == self.d] then the rows are appended. *)
Definition add (ix : IndexFlatIP) (x : list ndarray) : outcome IndexFlatIP :=
  match x with
  | [] => Raise ValueError
  | r :: _ =>
      if (length r =? d ix)%nat
      then Ok (mkIndex (d ix) (xb ix ++ x))
      else Raise AssertionError
  end.

Definition inner_product (a b : ndarray) : Q :=
  fold_left (fun acc xy => acc + fst xy * snd xy) (combine a b) 0.

(** The lowest float32, the score of a missing result. *)
Definition neg_FLT_MAX : Q := (-340282346638528859811704183484516925440) # 1.

(** Insertion into a list ordered by decreasing score, behind the entries
    of equal score: entries of one score stay in the order in which they
    are inserted, which is the order of their ranks ([arranged], below). *)
Fixpoint insert_desc {A : Type} (e : Q * A) (l : list (Q * A)) : list (Q * A) :=
  match l with
  | [] => [e]
  | e' :: r => if Qgtb (fst e) (fst e') then e :: l else e' :: insert_desc e r
  end.

Definition ranked {A : Type} (scored : list (Q * A)) : list (Q * A) :=
  fold_left (fun acc e => insert_desc e acc) scored [].

(** The scores of all stored vectors, each with its position. *)
Definition scored (ix : IndexFlatIP) (q : ndarray) : list (Q * Z) :=
  combine (map (inner_product q) (xb ix))
          (map Z.of_nat (seq 0 (length (xb ix)))).

(** [tie_rank k scores i]: the rank of position [i] in a search for [k]
    results over stored vectors with these scores. *)
Class TieOrder : Type := tie_rank : Z -> list Q -> Z -> Z.

(** Two tie orders: the earlier position first, the later position first. *)
Definition earlier_first : TieOrder := fun _ _ _ => 0%Z.
Definition later_first : TieOrder := fun _ _ i => (- i)%Z.

(** Insertion into a list ordered by increasing rank, behind the entries of
    equal rank. *)
Fixpoint insert_rank (rank : Z -> Z) (e : Q * Z) (l : list (Q * Z)) : list (Q * Z) :=
  match l with
  | [] => [e]
  | e' :: r =>
      if (rank (snd e) <? rank (snd e'))%Z then e :: l else e' :: insert_rank rank e r
  end.

(** The scored positions in the order of their ranks. *)
Definition arranged `{TieOrder} (k : Z) (l : list (Q * Z)) : list (Q * Z) :=
  fold_left (fun acc e => insert_rank (tie_rank k (map fst l)) e acc) l [].

(** The [k] best entries, filled up with missing results. *)
Definition top (k : nat) (l : list (Q * Z)) : list (Q * Z) :=
  let hits := firstn k l in
  hits ++ repeat (neg_FLT_MAX, (-1)%Z) (k - length hits).

(** [scores, indices = index.search(x, k)] for a one-row [x]; the result
    is the pair [(scores[0], indices[0])]. *)
Definition search `{TieOrder} (ix : IndexFlatIP) (q : ndarray) (k : Z)
    : outcome (list Q * list Z) :=
  if negb (length q =? d ix)%nat then Raise AssertionError
  else if negb (0 <? k)%Z then Raise AssertionError
  else let res := top (Z.to_nat k) (ranked (arranged k (scored ix q))) in
       Ok (map fst res, map snd res).

End faiss.

(** ** search_engine.py *)

(** One record of a result list. *)
Record SearchResult : Type := mkResult {
  r_video_id : string;
  r_start_time : Q;
  r_end_time : Q;
  r_text : string;
  similarity_score : Q;
  timestamp_formatted : string
}.

(** The dict that [get_video_summary] returns for a known video. *)
Record VideoSummary : Type := mkSummary {
  s_video_id : string;
  total_duration : Q;
  chunk_count : nat;
  duration_formatted : string
}.

Module VideoSearchEngine.

(** The fields of the object: [self.embedding_model] (its [encode] on one
    text), [self.chunks], [self.index] and [self.dimension]. *)
Record t : Type := mkEngine {
  embedding_model : string -> ndarray;
  chunks : list TranscriptChunk;
  index : option faiss.IndexFlatIP;
  dimension : option nat
}.

(** [__init__] *)
Definition init (model : string -> ndarray) : t := mkEngine model [] None None.

(** A method body: it reads and updates [self] and returns or raises. *)
Definition M (A : Type) : Type := t -> t * outcome A.

Definition ret {A : Type} (a : A) : M A := fun self => (self, Ok a).

Definition raise {A : Type} (e : exn) : M A := fun self => (self, Raise e).

Definition bind {A B : Type} (m : M A) (f : A -> M B) : M B :=
  fun self =>
    match m self with
    | (self', Ok a) => f a self'
    | (self', Raise e) => (self', Raise e)
    end.

Definition get : M t := fun self => (self, Ok self).

Definition lift {A : Type} (o : outcome A) : M A := fun self => (self, o).

Definition set_chunks (cs : list TranscriptChunk) : M unit :=
  fun self => (mkEngine (embedding_model self) cs (index self) (dimension self), Ok tt).

Definition set_index (ix : option faiss.IndexFlatIP) : M unit :=
  fun self => (mkEngine (embedding_model self) (chunks self) ix (dimension self), Ok tt).

Definition set_dimension (dim : option nat) : M unit :=
  fun self => (mkEngine (embedding_model self) (chunks self) (index self) dim, Ok tt).

Declare Scope engine_scope.
Delimit Scope engine_scope with engine.
Notation "x <- m ;; k" := (bind m (fun x => k))
  (at level 100, m at next level, right associativity) : engine_scope.
Notation "m ;; k" := (bind m (fun _ => k))
  (at level 100, right associativity) : engine_scope.
Local Open Scope engine_scope.

Definition is_None {A : Type} (o : option A) : bool :=
  match o with
  | None => true
  | Some _ => false
  end.

(** [chunk.embedding is not None] *)
Definition has_embedding (c : TranscriptChunk) : bool := negb (is_None (embedding c)).

(** [[chunk.embedding for chunk in valid_chunks]] *)
Definition embeddings_of (cs : list TranscriptChunk) : list ndarray :=
  flat_map (fun c => match embedding c with
                     | Some v => [v]
                     | None => []
                     end) cs.

(** [[chunk for chunk in self.chunks if chunk.video_id == video_id]] *)
Definition video_chunks_of (vid : string) (cs : list TranscriptChunk)
    : list TranscriptChunk :=
  filter (fun c => String.eqb (video_id c) vid) cs.

(** [add_chunks(self, chunks)] *)
Definition add_chunks (new_chunks : list TranscriptChunk) : M unit :=
  self <- get ;;
  set_chunks (chunks self ++ new_chunks) ;;
  (if is_None (index self) && truthy new_chunks then
     let valid_chunks := filter has_embedding new_chunks in
     match valid_chunks with
     | c :: _ =>
         let dim := length (match embedding c with Some v => v | None => [] end) in
         set_dimension (Some dim) ;;
         set_index (Some (faiss.new dim))
     | [] => ret tt
     end
   else ret tt) ;;
  if truthy new_chunks then
    let valid_chunks := filter has_embedding new_chunks in
    if truthy valid_chunks then
      embeddings <- lift (np_array (embeddings_of valid_chunks)) ;;
      self <- get ;;
      match index self with
      | Some ix =>
          ix' <- lift (faiss.add ix embeddings) ;;
          set_index (Some ix')
      | None => raise AttributeError
      end
    else ret tt
  else ret tt.

(** [_format_timestamp(self, seconds)] *)
Definition _format_timestamp (seconds : Q) : string :=
  let minutes := py_int (float_floor_div seconds 60) in
  let secs := py_int (float_rem seconds 60) in
  (format_02d minutes ++ ":" ++ format_02d secs)%string.

(** The dict built in the result loops of [search] and [search_by_video]. *)
Definition result_of (chunk : TranscriptChunk) (score : Q) : SearchResult :=
  mkResult (video_id chunk) (start_time chunk) (end_time chunk) (text chunk)
           score (_format_timestamp (start_time chunk)).

(** [for score, idx in zip(scores, indices): chunk = cs[idx];
    results.append({...})], with [results] the list built so far. *)
Fixpoint collect (cs : list TranscriptChunk) (hits : list (Q * Z))
    (results : list SearchResult) : M (list SearchResult) :=
  match hits with
  | [] => ret results
  | (score, idx) :: rest =>
      chunk <- lift (getitem cs idx) ;;
      collect cs rest (results ++ [result_of chunk score])
  end.

(** [search(self, query, top_k)] *)
Definition search `{faiss.TieOrder} (query : string) (top_k : Z)
    : M (list SearchResult) :=
  self <- get ;;
  if negb (truthy (chunks self)) || is_None (index self) then ret []
  else
    let query_embedding := embedding_model self query in
    match index self with
    | Some ix =>
        si <- lift (faiss.search ix query_embedding top_k) ;;
        self <- get ;;
        collect (chunks self) (combine (fst si) (snd si)) []
    | None => raise AttributeError
    end.

(** [get_video_summary(self, video_id)]; [None] stands for the empty dict. *)
Definition get_video_summary (vid : string) : M (option VideoSummary) :=
  self <- get ;;
  let video_chunks := video_chunks_of vid (chunks self) in
  if negb (truthy video_chunks) then ret None
  else
    match map end_time video_chunks with
    | e :: es =>
        let total_duration := py_max e es in
        let chunk_count := length video_chunks in
        ret (Some (mkSummary vid total_duration chunk_count
                             (_format_timestamp total_duration)))
    | [] => raise ValueError
    end.

(** [get_all_videos(self)]: the distinct video ids; the order of a Python
    set is not specified, here it is the order of first occurrence. *)
Definition get_all_videos : M (list string) :=
  self <- get ;;
  ret (nodup string_dec (map video_id (chunks self))).

(** [search_by_video(self, video_id, query, top_k)] *)
Definition search_by_video `{faiss.TieOrder} (vid : string) (query : string)
    (top_k : Z) : M (list SearchResult) :=
  self <- get ;;
  let video_chunks := video_chunks_of vid (chunks self) in
  if negb (truthy video_chunks) then ret []
  else
    match dimension self with
    | None => raise TypeError
    | Some dim =>
        let temp_index := faiss.new dim in
        let valid_chunks := filter has_embedding video_chunks in
        temp_index <-
          (if truthy valid_chunks then
             embeddings <- lift (np_array (embeddings_of valid_chunks)) ;;
             lift (faiss.add temp_index embeddings)
           else ret temp_index) ;;
        self <- get ;;
        let query_embedding := embedding_model self query in
        si <- lift (faiss.search temp_index query_embedding top_k) ;;
        collect video_chunks (combine (fst si) (snd si)) []
    end.

End VideoSearchEngine.

(** ** Properties of inputs and of results *)

(** Segments arrive in non-decreasing order of ["start"]. *)
Definition starts_nondecreasing (segments : list Segment) : Prop :=
  Sorted (fun a b => seg_start a <= seg_start b) segments.

(** No segment ends before the segment in front of it does. *)
Definition ends_nondecreasing (segments : list Segment) : Prop :=
  Sorted (fun a b => seg_end a <= seg_end b) segments.

(** Every chunk ends where the next one starts, and the last one ends at
    [nxt]. *)
Fixpoint linked (cs : list TranscriptChunk) (nxt : Q) : Prop :=
  match cs with
  | [] => True
  | c :: r =>
      end_time c = match r with
                   | [] => nxt
                   | c' :: _ => start_time c'
                   end
      /\ linked r nxt
  end.

Module E := VideoSearchEngine.

(** The states of an engine with embedding model [model]: the new engine,
    and the engine after a call of [add_chunks], whether the call returned
    or raised. *)
Inductive reachable (model : string -> ndarray) : E.t -> Prop :=
| reachable_init : reachable model (E.init model)
| reachable_add (self : E.t) (batch : list TranscriptChunk) :
    reachable model self -> reachable model (fst (E.add_chunks batch self)).

(** The vectors in the index, in the order of their positions. *)
Definition vectors (self : E.t) : list ndarray :=
  match E.index self with
  | Some ix => faiss.xb ix
  | None => []
  end.

(** The alignment that the result loops rely on: the vector at position
    [i] of the index is the embedding of the chunk at position [i] of
    [self.chunks]. *)
Definition aligned (self : E.t) : Prop :=
  forall i v, nth_error (vectors self) i = Some v ->
              exists c, nth_error (E.chunks self) i = Some c /\ embedding c = Some v.

(** The index and the corpus in step: as many vectors as chunks, each
    vector the embedding of the chunk at its position. *)
Definition in_step (self : E.t) : Prop :=
  map Some (vectors self) = map embedding (E.chunks self).

(** The engine between the statements of [add_chunks]: after
    [self.chunks.extend(chunks)], and after the block that creates the
    index. *)
Definition extended (batch : list TranscriptChunk) (self : E.t) : E.t :=
  E.mkEngine (E.embedding_model self) (E.chunks self ++ batch)
             (E.index self) (E.dimension self).

Definition initialised (batch : list TranscriptChunk) (self : E.t) : E.t :=
  match E.index self, filter E.has_embedding batch with
  | None, c :: _ =>
      let dim := length (match embedding c with Some v => v | None => [] end) in
      E.mkEngine (E.embedding_model self) (E.chunks self ++ batch)
                 (Some (faiss.new dim)) (Some dim)
  | _, _ => extended batch self
  end.

(** What [self.dimension] and [self.index] have in common in every
    reachable state. *)
Definition dimension_fixed (self : E.t) : Prop :=
  match E.dimension self, E.index self with
  | None, None => True
  | Some dim, Some ix => faiss.d ix = dim
  | _, _ => False
  end.

(** The two exceptions in which a vector of the wrong length shows: numpy
    refuses a batch whose rows differ in length, faiss refuses rows of a
    width other than its own. *)
Definition is_dimension_mismatch (e : exn) : bool :=
  match e with
  | ValueError | AssertionError => true
  | _ => false
  end.

(** *** The scoped query, in the words of the specification

    "Filtering the corpus to [video_id] first, building a temporary index
    over exactly those vectors preserving their relative order, then running
    the same ranking as [query]": the chunks of the video, in the order of
    the corpus, are inserted into an engine of their own, and that engine is
    searched as a whole. *)

Definition query_scoped `{faiss.TieOrder} (vid : string) (query : string) (k : Z)
    (self : E.t) : outcome (list SearchResult) :=
  let corpus := filter (fun c => String.eqb (video_id c) vid) (E.chunks self) in
  match E.add_chunks corpus (E.init (E.embedding_model self)) with
  | (filtered, Ok _) => snd (E.search query k filtered)
  | (_, Raise e) => Raise e
  end.

(** The vector of an embedded chunk. *)
Definition vector_of (c : TranscriptChunk) : ndarray :=
  match embedding c with
  | Some v => v
  | None => []
  end.

(** The pair of a score and a payload, with the payload mapped. *)
Definition on_payload {A B : Type} (g : A -> B) (e : Q * A) : Q * B :=
  (fst e, g (snd e)).

(** The record that the result loop builds for the label [i]. *)
Definition record_at (cs : list TranscriptChunk) (hit : Q * Z) : SearchResult :=
  E.result_of (nth (Z.to_nat (snd hit)) cs (mkChunk "" 0 0 "" None)) (fst hit).

(** The score of a chunk against a query vector, with the chunk. *)
Definition chunk_score (q : ndarray) (c : TranscriptChunk) : Q * TranscriptChunk :=
  (faiss.inner_product q (vector_of c), c).

(** The chunk at a position of a corpus. *)
Definition chunk_at (cs : list TranscriptChunk) (i : Z) : TranscriptChunk :=
  nth (Z.to_nat i) cs (mkChunk "" 0 0 "" None).

(** The order in which an index over the vectors of the chunks [cs] returns
    them in a search for [k] results: each chunk with its score. *)
Definition corpus_ranking `{faiss.TieOrder} (k : Z) (q : ndarray) (cs : list TranscriptChunk)
    : list (Q * TranscriptChunk) :=
  map (on_payload (chunk_at cs))
      (faiss.ranked
         (faiss.arranged k (faiss.scored (faiss.mkIndex (length q) (map vector_of cs)) q))).

(** Scores with the positions they stand at, and the place of a label in
    a list of labels (the length of the list for a label that is not in
    it). *)
Definition labelled (scores : list Q) : list (Q * Z) :=
  combine scores (map Z.of_nat (seq 0 (length scores))).

Fixpoint place (i : Z) (labels : list Z) : Z :=
  match labels with
  | [] => 0%Z
  | j :: rest => if (i =? j)%Z then 0%Z else (1 + place i rest)%Z
  end.

(** No two of the chunks [cs] have the same score against [q]. *)
Definition distinct_scores (q : ndarray) (cs : list TranscriptChunk) : Prop :=
  NoDup (map (fun c => Qred (faiss.inner_product q (vector_of c))) cs).

(** An engine whose insertions all went well: index and corpus in step,
    every vector of the width of the index, which is [self.dimension]. *)
Definition well_formed (self : E.t) : Prop :=
  in_step self
  /\ exists ix, E.index self = Some ix
                /\ E.dimension self = Some (faiss.d ix)
                /\ Forall (fun v => length v = faiss.d ix) (faiss.xb ix).

(** *** Example data *)

(** An embedding model for the examples: every text goes to [[0; 1; 0]]. *)
Definition demo_model (_ : string) : ndarray := [0; 1; 0].

Definition chunk_basics : TranscriptChunk :=
  mkChunk "video_001" 0 30 "machine learning basics" (Some [1; 0; 0]).
Definition chunk_regression : TranscriptChunk :=
  mkChunk "video_001" 30 60 "linear regression" (Some [0; 1; 0]).
Definition chunk_classification : TranscriptChunk :=
  mkChunk "video_001" 60 90 "classification problems" (Some [0; 0; 1]).

(** A chunk as the chunker returns it, before the embedding step. *)
Definition chunk_plain : TranscriptChunk :=
  mkChunk "video_002" 0 30 "deep learning" None.

(** A chunk whose vector has two components. *)
Definition chunk_short_vector : TranscriptChunk :=
  mkChunk "video_002" 30 60 "neural networks" (Some [1; 0]).

Definition engine_001 : E.t :=
  fst (E.add_chunks [chunk_basics; chunk_regression; chunk_classification]
                    (E.init demo_model)).

Definition engine_one_chunk : E.t :=
  fst (E.add_chunks [chunk_regression] (E.init demo_model)).

Definition engine_misaligned : E.t :=
  fst (E.add_chunks [chunk_plain; chunk_regression] (E.init demo_model)).

(** An engine in which [video_002] has one chunk, without embedding. *)
Definition engine_unembedded_video : E.t :=
  fst (E.add_chunks [chunk_basics; chunk_plain] (E.init demo_model)).

(** An embedding model that tells the three example vectors apart, and an
    engine with chunks of two videos. *)
Definition graded_model (_ : string) : ndarray := [3; 2; 1].

Definition chunk_networks : TranscriptChunk :=
  mkChunk "video_002" 0 30 "neural networks" (Some [0; 1; 0]).

Definition engine_two_videos : E.t :=
  fst (E.add_chunks [chunk_basics; chunk_networks; chunk_classification]
                    (E.init graded_model)).

(** *** Loading embedded chunks *)





(** [summary['chunk_count']] for a video, 0 for the empty dict. *)
Definition count_of (self : E.t) (vid : string) : nat :=
  match snd (E.get_video_summary vid self) with
  | Ok (Some s) => chunk_count s
  | _ => 0%nat
  end.

(** Scores in non-increasing order. *)
Definition descending {A : Type} (l : list (Q * A)) : Prop :=
  StronglySorted (fun a b => fst b <= fst a) l.

(** The record of a chunk with its score. *)
Definition record_of (sc : Q * TranscriptChunk) : SearchResult :=
  E.result_of (snd sc) (fst sc).

(** ASCII capital letters, the characters that [str.lower] changes. *)
Definition is_upper (c : ascii) : bool :=
  let n := nat_of_ascii c in ((65 <=? n) && (n <=? 90))%nat.

Fixpoint has_upper (s : string) : bool :=
  match s with
  | EmptyString => false
  | String c r => is_upper c || has_upper r
  end.

(** The engine of main.py after its start: the mock data loaded into a
    new engine. *)
Definition mock_engine : E.t :=
  fst (E.add_chunks (generate_mock_transcripts demo_model) (E.init demo_model)).

(** Example input for the chunker: five short segments. *)
Definition short_segments : list Segment :=
  [mkSegment 0 4 "one"; mkSegment 4 9 " two"; mkSegment 9 15 "three ";
   mkSegment 15 22 "four"; mkSegment 22 29 "five"].

(** The segments used by the examples below. *)
Definition long_segment : Segment := mkSegment 0 100 "B".
Definition short_segment : Segment := mkSegment 10 20 "C".
Definition demo_segments : list Segment :=
  [mkSegment 0 12 "  Hello "; mkSegment 12 25 "world";
   mkSegment 25 70 " a long one"; mkSegment 70 80 "bye "].

(** Sortedness of a concrete list, by computation. *)
Ltac sorted_by_computation :=
  unfold starts_nondecreasing, ends_nondecreasing;
  repeat (constructor; try (unfold Qle; simpl; lia)).

(** * Theorems: the chunker *)

Section Chunker.

Import TranscriptProcessor.

Variable vid : string.
Variable chunk_duration : Q.

Local Abbreviation run := (fold_left (loop_body vid chunk_duration)).

Lemma Qgtb_true (a b : Q) : Qgtb a b = true <-> b < a.
Proof.
  unfold Qgtb. rewrite negb_true_iff.
  split; intro H.
  - apply Qnot_le_lt. intro Hle. apply Qle_bool_iff in Hle. congruence.
  - destruct (Qle_bool a b) eqn:E; [|reflexivity].
    apply Qle_bool_iff in E. exfalso. apply (Qlt_not_le _ _ H E).
Qed.

Lemma truthy_app_r {A : Type} (xs : list A) (x : A) : truthy (xs ++ [x]) = true.
Proof. destruct xs; reflexivity. Qed.

Lemma truthy_true {A : Type} (xs : list A) : truthy xs = true <-> xs <> [].
Proof. destruct xs; simpl; split; congruence. Qed.

(** After one iteration the buffer is never empty. *)
Lemma loop_body_buffer st s :
  truthy (current_chunk_text (loop_body vid chunk_duration st s)) = true.
Proof.
  unfold loop_body.
  destruct (Qgtb _ _ && truthy _); simpl; [reflexivity | apply truthy_app_r].
Qed.

Lemma run_buffer segs st :
  truthy (current_chunk_text st) = true \/ segs <> [] ->
  truthy (current_chunk_text (run segs st)) = true.
Proof.
  revert st. induction segs as [|s segs IH]; intros st H; simpl.
  - destruct H as [H|H]; [exact H | congruence].
  - apply IH. left. apply loop_body_buffer.
Qed.

(** The loop only appends to [chunks]. *)
Lemma run_chunks_extend segs st :
  exists more, chunks (run segs st) = chunks st ++ more.
Proof.
  revert st. induction segs as [|s segs IH]; intros st; simpl.
  - exists []. now rewrite app_nil_r.
  - destruct (IH (loop_body vid chunk_duration st s)) as [more Hm].
    rewrite Hm. unfold loop_body.
    destruct (Qgtb _ _ && truthy _); simpl.
    + rewrite <- app_assoc. eexists. reflexivity.
    + eexists. reflexivity.
Qed.

(** *** Contiguity *)

Lemma linked_snoc cs c nxt :
  linked cs (start_time c) -> end_time c = nxt -> linked (cs ++ [c]) nxt.
Proof.
  induction cs as [|c0 cs IH]; simpl; intros H E.
  - auto.
  - destruct H as [H1 H2]. split; [| auto].
    destruct cs; simpl; assumption.
Qed.

Lemma linked_nth cs nxt i c c' :
  linked cs nxt -> nth_error cs i = Some c -> nth_error cs (S i) = Some c' ->
  end_time c = start_time c'.
Proof.
  revert i. induction cs as [|c0 cs IH]; intros i H Hi HS.
  - destruct i; discriminate.
  - destruct H as [H1 H2]. destruct i as [|i].
    + simpl in Hi. injection Hi as ->. destruct cs; simpl in HS; [discriminate|].
      injection HS as ->. exact H1.
    + simpl in Hi, HS. eapply IH; eauto.
Qed.

Lemma run_linked segs st :
  linked (chunks st) (current_start_time st) ->
  linked (chunks (run segs st)) (current_start_time (run segs st)).
Proof.
  revert st. induction segs as [|s segs IH]; intros st H; simpl; [exact H|].
  apply IH. unfold loop_body.
  destruct (Qgtb _ _ && truthy _); simpl; [| exact H].
  apply linked_snoc; simpl; [exact H | reflexivity].
Qed.

Lemma last_end_snoc segs s : last_end (segs ++ [s]) = seg_end s.
Proof. unfold last_end. rewrite map_app. simpl. apply last_last. Qed.

(** For a non-empty input the last chunk is always added. *)
Lemma chunk_transcript_nonempty s segs :
  chunk_transcript (s :: segs) vid chunk_duration =
  chunks (run (s :: segs) (loop_init (s :: segs))) ++
  [mkChunk vid (current_start_time (run (s :: segs) (loop_init (s :: segs))))
           (last_end (s :: segs))
           (join " " (current_chunk_text (run (s :: segs) (loop_init (s :: segs)))))
           None].
Proof.
  unfold chunk_transcript, add_last_chunk.
  rewrite run_buffer; [reflexivity | right; discriminate].
Qed.

(** Contiguity holds for every input; the order of the segments plays no
    part in it. *)
Lemma chunk_transcript_linked segs :
  linked (chunk_transcript segs vid chunk_duration) (last_end segs).
Proof.
  destruct segs as [|s segs]; [exact I|].
  rewrite chunk_transcript_nonempty.
  apply linked_snoc; simpl; [| reflexivity].
  apply (run_linked (s :: segs) (loop_init (s :: segs))). exact I.
Qed.

(** A flushed chunk ends at the start of the segment that closed it. *)
Lemma run_flushed_ends (all : list Segment) segs st :
  (forall s, In s segs -> In s all) ->
  Forall (fun c => exists s, In s all /\ end_time c = seg_start s) (chunks st) ->
  Forall (fun c => exists s, In s all /\ end_time c = seg_start s)
         (chunks (run segs st)).
Proof.
  revert st. induction segs as [|s segs IH]; intros st Hsub Hc; simpl; [exact Hc|].
  apply IH; [intros s' Hs'; apply Hsub; right; exact Hs' |].
  unfold loop_body. destruct (Qgtb _ _ && truthy _); simpl; [| exact Hc].
  apply Forall_app. split; [exact Hc|].
  constructor; [| constructor]. exists s. split; [| reflexivity].
  apply Hsub. left. reflexivity.
Qed.

(** C5. For a non-empty segment sequence with non-decreasing start times,
    each chunk of [chunk_transcript] ends where the next chunk starts (a
    flushed chunk ends at the start of a segment), and the last chunk ends
    at the ["end"] of the last segment. *)
Theorem chunk_transcript_contiguous (segments : list Segment) :
  segments <> [] ->
  starts_nondecreasing segments ->
  (forall i c c',
      nth_error (chunk_transcript segments vid chunk_duration) i = Some c ->
      nth_error (chunk_transcript segments vid chunk_duration) (S i) = Some c' ->
      end_time c = start_time c')
  /\ (exists front c before s,
         chunk_transcript segments vid chunk_duration = front ++ [c]
         /\ segments = before ++ [s]
         /\ end_time c = seg_end s
         /\ Forall (fun c' => exists s', In s' segments /\ end_time c' = seg_start s')
                   front).
Proof.
  intros Hne _. split.
  - intros i c c'. apply linked_nth with (nxt := last_end segments).
    apply chunk_transcript_linked.
  - destruct (exists_last Hne) as [before [s ->]].
    destruct (before ++ [s]) as [|s0 rest] eqn:E.
    + destruct before; discriminate.
    + rewrite chunk_transcript_nonempty. rewrite <- E.
      eexists _, _, before, s. split; [reflexivity|].
      split; [reflexivity|]. split; [simpl; apply last_end_snoc|].
      rewrite E. apply run_flushed_ends; [auto | constructor].
Qed.

(** *** Text fidelity *)

Lemma sappend_assoc (a b c : string) : ((a ++ b) ++ c = a ++ (b ++ c))%string.
Proof. induction a as [|x a IH]; simpl; [reflexivity | now rewrite IH]. Qed.

Lemma join_cons sep x xs :
  xs <> [] -> join sep (x :: xs) = (x ++ sep ++ join sep xs)%string.
Proof. destruct xs; [congruence | reflexivity]. Qed.

Lemma join_app sep xs ys :
  xs <> [] -> ys <> [] ->
  join sep (xs ++ ys) = (join sep xs ++ sep ++ join sep ys)%string.
Proof.
  intros Hx Hy. induction xs as [|x xs IH]; [congruence|].
  destruct xs as [|x' xs].
  - simpl app. rewrite join_cons by assumption. reflexivity.
  - change ((x :: x' :: xs) ++ ys) with (x :: ((x' :: xs) ++ ys)).
    rewrite join_cons by discriminate.
    rewrite IH by discriminate.
    rewrite (join_cons sep x (x' :: xs)) by discriminate.
    now rewrite !sappend_assoc.
Qed.

(** Joining a non-empty group first and the whole afterwards is joining
    everything at once. *)
Lemma join_group sep xs b ys :
  b <> [] -> join sep (xs ++ [join sep b] ++ ys) = join sep (xs ++ b ++ ys).
Proof.
  intros Hb.
  assert (Hmid : join sep ([join sep b] ++ ys) = join sep (b ++ ys)).
  { destruct ys as [|y ys].
    - rewrite !app_nil_r. reflexivity.
    - simpl app. rewrite join_cons by discriminate.
      rewrite join_app by (assumption || discriminate). reflexivity. }
  destruct xs as [|x xs]; [exact Hmid|].
  rewrite !(join_app sep (x :: xs)); try discriminate.
  - now rewrite Hmid.
  - destruct b; [congruence | discriminate].
Qed.

Lemma run_text segs0 segs st :
  join " " (map text (add_last_chunk vid segs0 (run segs st))) =
  join " " (map text (chunks st) ++ current_chunk_text st
            ++ map (fun s => strip (seg_text s)) segs).
Proof.
  revert st. induction segs as [|s segs IH]; intros st.
  - simpl. rewrite app_nil_r. unfold add_last_chunk.
    destruct (current_chunk_text st) as [|t ts] eqn:E; simpl truthy; cbv iota.
    + now rewrite app_nil_r.
    + rewrite map_app. simpl map.
      pose proof (join_group " " (map text (chunks st)) (t :: ts) []) as H.
      rewrite !app_nil_r in H. apply H. discriminate.
  - simpl fold_left. rewrite IH. unfold loop_body.
    destruct (Qgtb _ _ && truthy _) eqn:C; simpl.
    + apply andb_true_iff in C. destruct C as [_ C]. apply truthy_true in C.
      rewrite map_app. simpl map. rewrite <- app_assoc.
      apply (join_group " " (map text (chunks st)) (current_chunk_text st)
                        (strip (seg_text s) :: map (fun s => strip (seg_text s)) segs)).
      exact C.
    + now rewrite <- app_assoc.
Qed.

(** C6. Joining the texts of the chunks with single spaces gives the
    stripped texts of the segments joined with single spaces. *)
Theorem chunk_transcript_text (segments : list Segment) :
  join " " (map text (chunk_transcript segments vid chunk_duration)) =
  join " " (map (fun s => strip (seg_text s)) segments).
Proof.
  unfold chunk_transcript. rewrite run_text. reflexivity.
Qed.

(** *** Ordered times *)

Lemma starts_strongly_sorted segs :
  starts_nondecreasing segs ->
  StronglySorted (fun a b => seg_start a <= seg_start b) segs.
Proof.
  apply Sorted_StronglySorted. intros a b c Hab Hbc.
  eapply Qle_trans; eassumption.
Qed.

Lemma StronglySorted_app_l {A : Type} (R : A -> A -> Prop) l1 x l2 :
  StronglySorted R (l1 ++ x :: l2) -> Forall (fun y => R y x) l1.
Proof.
  induction l1 as [|a l1 IH]; simpl; intros H; [constructor|].
  apply StronglySorted_inv in H. destruct H as [H1 H2].
  constructor; [| auto].
  rewrite Forall_forall in H2. apply H2. apply in_or_app. right. left. reflexivity.
Qed.

Lemma Sorted_app_r {A : Type} (R : A -> A -> Prop) l1 l2 :
  Sorted R (l1 ++ l2) -> Sorted R l2.
Proof.
  induction l1 as [|a l1 IH]; simpl; intros H; [exact H|].
  apply Sorted_inv in H. tauto.
Qed.

(** [current_start_time] never passes a bound of all the starts. *)
Lemma run_start_bound segs st m :
  current_start_time st <= m ->
  Forall (fun s => seg_start s <= m) segs ->
  current_start_time (run segs st) <= m.
Proof.
  revert st. induction segs as [|s segs IH]; intros st H0 HF; simpl; [exact H0|].
  inversion HF as [|? ? Hs HF']; subst.
  apply IH; [| exact HF'].
  unfold loop_body. destruct (Qgtb _ _ && truthy _); simpl; assumption.
Qed.

Lemma run_ordered segs st :
  Forall (fun c => start_time c <= end_time c) (chunks st) ->
  Forall (fun s => current_start_time st <= seg_start s) segs ->
  StronglySorted (fun a b => seg_start a <= seg_start b) segs ->
  Forall (fun c => start_time c <= end_time c) (chunks (run segs st)).
Proof.
  revert st. induction segs as [|s segs IH]; intros st Hc Hs Hsorted; simpl.
  - exact Hc.
  - inversion Hs as [|? ? Hs1 Hs2]; subst.
    apply StronglySorted_inv in Hsorted. destruct Hsorted as [Hsorted Hhd].
    apply IH; [| | exact Hsorted]; unfold loop_body;
      destruct (Qgtb _ _ && truthy _); simpl; try assumption.
    apply Forall_app. split; [exact Hc|].
    constructor; [exact Hs1 | constructor].
Qed.

(** C9. When every segment ends no earlier than it starts and the starts
    are non-decreasing, every chunk has [start_time <= end_time]. *)
Theorem chunk_transcript_start_le_end (segments : list Segment) :
  (forall s, In s segments -> seg_start s <= seg_end s) ->
  starts_nondecreasing segments ->
  forall c, In c (chunk_transcript segments vid chunk_duration) ->
            start_time c <= end_time c.
Proof.
  intros Hwf Hsorted.
  apply starts_strongly_sorted in Hsorted.
  apply Forall_forall.
  destruct segments as [|s0 rest] eqn:E; [constructor|].
  rewrite chunk_transcript_nonempty. rewrite <- E in *.
  assert (Hhd : Forall (fun s => current_start_time (loop_init segments) <= seg_start s)
                       segments).
  { subst segments. simpl. apply StronglySorted_inv in Hsorted.
    constructor; [apply Qle_refl | tauto]. }
  apply Forall_app. split.
  - apply run_ordered; [constructor | exact Hhd | exact Hsorted].
  - constructor; [| constructor]. simpl.
    assert (Hne : segments <> []) by (subst; discriminate).
    destruct (exists_last Hne) as [before [l El]].
    rewrite El in *. rewrite last_end_snoc.
    apply Qle_trans with (seg_start l).
    + apply run_start_bound.
      * rewrite Forall_forall in Hhd. apply Hhd. apply in_or_app. right. left. reflexivity.
      * apply Forall_app. split.
        -- apply (StronglySorted_app_l (fun a b => seg_start a <= seg_start b)
                                       before l []).
           exact Hsorted.
        -- constructor; [apply Qle_refl | constructor].
    + apply Hwf. apply in_or_app. right. left. reflexivity.
Qed.

(** *** Over-long segments *)

Lemma loop_body_flush st s :
  chunk_duration < seg_end s - current_start_time st ->
  current_chunk_text st <> [] ->
  loop_body vid chunk_duration st s =
  mkLocals (chunks st ++ [mkChunk vid (current_start_time st) (seg_start s)
                                  (join " " (current_chunk_text st)) None])
           [strip (seg_text s)] (seg_start s).
Proof.
  intros Hlt Hne. unfold loop_body.
  apply Qgtb_true in Hlt. apply truthy_true in Hne.
  now rewrite Hlt, Hne.
Qed.

(** The state in which the loop leaves an over-long segment [B]: [B] is
    alone in the buffer, the chunk under construction starts with [B], and
    the chunks flushed so far are those of the segments in front of [B]. *)
Lemma run_long_segment before B after :
  starts_nondecreasing (before ++ B :: after) ->
  chunk_duration < seg_end B - seg_start B ->
  let st := loop_body vid chunk_duration
              (run before (loop_init (before ++ B :: after))) B in
  current_chunk_text st = [strip (seg_text B)]
  /\ current_start_time st = seg_start B
  /\ map text (chunks st) = map text (chunk_transcript before vid chunk_duration).
Proof.
  intros Hsorted Hlong. apply starts_strongly_sorted in Hsorted.
  destruct before as [|s0 rest] eqn:E.
  - simpl. unfold loop_body. simpl. rewrite andb_false_r. simpl. auto.
  - rewrite <- E in *.
    assert (Hinit : loop_init (before ++ B :: after) = loop_init before)
      by (subst before; reflexivity).
    rewrite Hinit. cbv zeta.
    assert (Hbound : current_start_time (run before (loop_init before)) <= seg_start B).
    { pose proof (StronglySorted_app_l (fun a b => seg_start a <= seg_start b)
                    before B after Hsorted) as HF.
      apply run_start_bound; [| exact HF].
      subst before. simpl. inversion HF; assumption. }
    assert (Hbuf : current_chunk_text (run before (loop_init before)) <> []).
    { apply truthy_true. apply run_buffer. right. subst; discriminate. }
    rewrite loop_body_flush; [| lra | exact Hbuf]. simpl.
    split; [reflexivity|]. split; [reflexivity|].
    unfold chunk_transcript, add_last_chunk.
    apply truthy_true in Hbuf. rewrite Hbuf.
    rewrite !map_app. reflexivity.
Qed.

(** C7, as amended.  When the start times and the end times are both
    non-decreasing, a segment longer than [chunk_duration] is a chunk of its
    own: the chunk starts at the segment's start, its text is the segment's
    stripped text, it ends at the next segment's start (the segment's end
    when the segment is the last one), and the chunks in front of it carry
    the texts of the chunks of the segments in front of it. *)
Theorem long_segment_own_chunk (before : list Segment) (B : Segment)
    (after : list Segment) :
  starts_nondecreasing (before ++ B :: after) ->
  ends_nondecreasing (before ++ B :: after) ->
  chunk_duration < seg_end B - seg_start B ->
  exists front c back,
    chunk_transcript (before ++ B :: after) vid chunk_duration = front ++ c :: back
    /\ map text front = map text (chunk_transcript before vid chunk_duration)
    /\ text c = strip (seg_text B)
    /\ start_time c = seg_start B
    /\ end_time c = match after with
                    | [] => seg_end B
                    | next :: _ => seg_start next
                    end.
Proof.
  intros Hstarts Hends Hlong.
  destruct (run_long_segment before B after Hstarts Hlong) as (Hbuf & Hcs & Htext).
  set (st := loop_body vid chunk_duration
               (run before (loop_init (before ++ B :: after))) B) in *.
  assert (Hrun : run (before ++ B :: after) (loop_init (before ++ B :: after))
                 = run after st).
  { rewrite fold_left_app. reflexivity. }
  unfold chunk_transcript. rewrite Hrun.
  destruct after as [|next after'].
  - simpl. unfold add_last_chunk. rewrite Hbuf. simpl truthy. cbv iota.
    eexists (chunks st), _, []. split; [reflexivity|].
    split; [exact Htext|]. simpl. rewrite Hcs.
    split; [reflexivity|]. split; [reflexivity|].
    apply last_end_snoc.
  - simpl fold_left.
    assert (Hnext : seg_end B <= seg_end next).
    { apply Sorted_app_r in Hends. apply Sorted_inv in Hends.
      destruct Hends as [_ Hhd]. inversion Hhd; assumption. }
    rewrite loop_body_flush; [| rewrite Hcs; lra | rewrite Hbuf; discriminate].
    rewrite Hbuf, Hcs.
    match goal with
    | |- context [run after' ?s] =>
        destruct (run_chunks_extend after' s) as [more Hmore];
        unfold add_last_chunk; rewrite Hmore
    end.
    simpl chunks.
    destruct (truthy _); eexists (chunks st), _, _;
      (split; [rewrite <- ?app_assoc; simpl; reflexivity |]);
      (split; [exact Htext | simpl; auto]).
Qed.

End Chunker.

(** C7, as stated, fails: the starts are non-decreasing and the first
    segment is longer than [chunk_duration], but the second segment ends
    within [chunk_duration] of the first one's start and joins its chunk. *)
Lemma long_segment_not_alone :
  starts_nondecreasing [long_segment; short_segment]
  /\ 30 < seg_end long_segment - seg_start long_segment
  /\ TranscriptProcessor.chunk_transcript [long_segment; short_segment] "v" 30
     = [mkChunk "v" 0 20 "B C" None]
  /\ ~ (exists c,
          In c (TranscriptProcessor.chunk_transcript
                  [long_segment; short_segment] "v" 30)
          /\ text c = strip (seg_text long_segment)).
Proof.
  split; [| split; [| split]].
  - repeat constructor. simpl. discriminate.
  - reflexivity.
  - reflexivity.
  - intros [c [Hin Ht]]. simpl in Hin. destruct Hin as [<- | []].
    discriminate Ht.
Qed.

Lemma chunk_transcript_contiguous_witness :
  (demo_segments <> [] /\ starts_nondecreasing demo_segments)
  /\ (forall i c c',
         nth_error (TranscriptProcessor.chunk_transcript demo_segments "v" 30) i = Some c ->
         nth_error (TranscriptProcessor.chunk_transcript demo_segments "v" 30) (S i) = Some c' ->
         end_time c = start_time c')
  /\ (exists front c before s,
         TranscriptProcessor.chunk_transcript demo_segments "v" 30 = front ++ [c]
         /\ demo_segments = before ++ [s]
         /\ end_time c = seg_end s
         /\ Forall (fun c' => exists s', In s' demo_segments
                                         /\ end_time c' = seg_start s')
                   front).
Proof.
  split.
  - split; [discriminate | sorted_by_computation].
  - apply (chunk_transcript_contiguous "v" 30 demo_segments);
      [discriminate | sorted_by_computation].
Defined.

Lemma chunk_transcript_start_le_end_witness :
  starts_nondecreasing demo_segments
  /\ (forall c, In c (TranscriptProcessor.chunk_transcript demo_segments "v" 30) ->
                start_time c <= end_time c).
Proof.
  split; [sorted_by_computation |].
  apply (chunk_transcript_start_le_end "v" 30 demo_segments).
  - intros s Hs. simpl in Hs.
    repeat (destruct Hs as [<- | Hs]; [unfold Qle; simpl; lia |]).
    destruct Hs.
  - sorted_by_computation.
Defined.

Lemma long_segment_own_chunk_witness :
  exists front c back,
    TranscriptProcessor.chunk_transcript
      ([mkSegment 0 12 "  Hello "; mkSegment 12 25 "world"]
         ++ mkSegment 25 70 " a long one" :: [mkSegment 70 80 "bye "]) "v" 30
    = front ++ c :: back
    /\ map text front
       = map text (TranscriptProcessor.chunk_transcript
                     [mkSegment 0 12 "  Hello "; mkSegment 12 25 "world"] "v" 30)
    /\ text c = strip (seg_text (mkSegment 25 70 " a long one"))
    /\ start_time c = seg_start (mkSegment 25 70 " a long one")
    /\ end_time c = seg_start (mkSegment 70 80 "bye ").
Proof.
  apply (long_segment_own_chunk "v" 30
           [mkSegment 0 12 "  Hello "; mkSegment 12 25 "world"]
           (mkSegment 25 70 " a long one") [mkSegment 70 80 "bye "]).
  - sorted_by_computation.
  - sorted_by_computation.
  - reflexivity.
Defined.

(** * Theorems: the similarity index *)

Section Engine.

Import VideoSearchEngine.

Context {ties : faiss.TieOrder}.

Ltac run_method :=
  unfold bind, get, lift, ret, raise, set_chunks, set_index, set_dimension; simpl.

Lemma getitem_In {A : Type} (xs : list A) (i : Z) (x : A) :
  getitem xs i = Ok x -> In x xs.
Proof.
  unfold getitem. destruct (_ && _)%bool; [| discriminate].
  destruct (nth_error xs _) eqn:E; [| discriminate].
  intros H. injection H as <-. eapply nth_error_In. exact E.
Qed.

(** The result loop does not touch the engine, and what it returns does not
    depend on the engine. *)
Lemma collect_eq cs hits acc (self other : t) :
  collect cs hits acc self = (self, snd (collect cs hits acc other)).
Proof.
  revert acc. induction hits as [|[score idx] hits IH]; intros acc; simpl.
  - reflexivity.
  - run_method. destruct (getitem cs idx); [apply IH | reflexivity].
Qed.

Lemma collect_state cs hits acc (self : t) :
  fst (collect cs hits acc self) = self.
Proof. now rewrite (collect_eq cs hits acc self self). Qed.

Lemma collect_Forall (P : SearchResult -> Prop) cs hits acc (self : t) rs :
  (forall c score, In c cs -> P (result_of c score)) ->
  Forall P acc ->
  snd (collect cs hits acc self) = Ok rs ->
  Forall P rs.
Proof.
  intros HP. revert acc. induction hits as [|[score idx] hits IH]; intros acc Hacc; simpl.
  - intros H. injection H as <-. exact Hacc.
  - run_method. destruct (getitem cs idx) eqn:E; [| discriminate].
    apply IH. apply Forall_app. split; [exact Hacc|].
    constructor; [| constructor]. apply HP. eapply getitem_In. exact E.
Qed.

Lemma collect_length cs hits acc (self : t) rs :
  snd (collect cs hits acc self) = Ok rs ->
  length rs = (length acc + length hits)%nat.
Proof.
  revert acc. induction hits as [|[score idx] hits IH]; intros acc; simpl.
  - intros H. injection H as <-. lia.
  - run_method. destruct (getitem cs idx); [| discriminate].
    intros H. apply IH in H. rewrite H, length_app. simpl. lia.
Qed.

Lemma embeddings_of_valid cs :
  embeddings_of (filter has_embedding cs) = embeddings_of cs.
Proof.
  induction cs as [|c cs IH]; [reflexivity|].
  simpl. unfold has_embedding at 1.
  destruct (embedding c) eqn:E; simpl; rewrite ?E; simpl; now rewrite IH.
Qed.

Lemma truthy_valid cs :
  truthy (filter has_embedding cs) = truthy (embeddings_of cs).
Proof.
  induction cs as [|c cs IH]; [reflexivity|].
  simpl. unfold has_embedding at 1.
  destruct (embedding c); simpl; [reflexivity | exact IH].
Qed.

(** C10. The query-side methods [search], [search_by_video],
    [get_video_summary] and [get_all_videos] leave the engine as it was:
    the same chunks, the same index contents and the same dimension. *)
Theorem queries_leave_engine_unchanged
    (self : t) (query vid : string) (k : Z) :
  fst (search query k self) = self
  /\ fst (search_by_video vid query k self) = self
  /\ fst (get_video_summary vid self) = self
  /\ fst (get_all_videos self) = self.
Proof.
  split; [| split; [| split]].
  - unfold search. run_method.
    destruct (negb (truthy (chunks self)) || is_None (index self)); [reflexivity|].
    destruct (index self) as [ix|]; [| reflexivity].
    destruct (faiss.search ix _ k); [apply collect_state | reflexivity].
  - unfold search_by_video. run_method.
    destruct (negb (truthy (video_chunks_of vid (chunks self)))); [reflexivity|].
    destruct (dimension self) as [dim|]; [| reflexivity].
    destruct (truthy (filter has_embedding _)); simpl.
    + destruct (np_array _); simpl; [| reflexivity].
      destruct (faiss.add _ _); [| reflexivity].
      destruct (faiss.search _ _ k); [apply collect_state | reflexivity].
    + destruct (faiss.search _ _ k); [apply collect_state | reflexivity].
  - unfold get_video_summary. run_method.
    destruct (negb _); [reflexivity|].
    destruct (map end_time _); reflexivity.
  - reflexivity.
Qed.

Lemma video_chunks_of_id vid cs c :
  In c (video_chunks_of vid cs) -> video_id c = vid.
Proof.
  unfold video_chunks_of. intros H. apply filter_In in H.
  destruct H as [_ H]. now apply String.eqb_eq.
Qed.

(** *** Insertion *)

(** [add_chunks], statement by statement. *)
Lemma add_chunks_steps (batch : list TranscriptChunk) (self : t) :
  add_chunks batch self =
  match filter has_embedding batch with
  | [] => (initialised batch self, Ok tt)
  | valid =>
      match np_array (embeddings_of valid) with
      | Raise e => (initialised batch self, Raise e)
      | Ok x =>
          match index (initialised batch self) with
          | None => (initialised batch self, Raise AttributeError)
          | Some ix =>
              match faiss.add ix x with
              | Raise e => (initialised batch self, Raise e)
              | Ok ix' =>
                  (mkEngine (embedding_model self) (chunks self ++ batch)
                            (Some ix') (dimension (initialised batch self)),
                   Ok tt)
              end
          end
      end
  end.
Proof.
  unfold add_chunks, initialised, extended.
  unfold bind, get, lift, ret, raise, set_chunks, set_index, set_dimension.
  cbv beta iota zeta.
  destruct batch as [|c0 batch]; [destruct (index self); reflexivity|].
  change (truthy (c0 :: batch)) with true. rewrite andb_true_r.
  destruct (filter has_embedding (c0 :: batch)) as [|c valid];
    destruct (index self) as [ix|]; reflexivity.
Qed.

(** Every given chunk is appended to [self.chunks], embedded or not, and
    whether or not the call raises afterwards. *)
Lemma add_chunks_chunks (batch : list TranscriptChunk) (self : t) :
  chunks (fst (add_chunks batch self)) = chunks self ++ batch.
Proof.
  rewrite add_chunks_steps.
  assert (H : chunks (initialised batch self) = chunks self ++ batch).
  { unfold initialised, extended.
    destruct (index self); [reflexivity|].
    destruct (filter has_embedding batch); reflexivity. }
  destruct (filter has_embedding batch); [exact H|].
  destruct (np_array _); [| exact H].
  destruct (index (initialised batch self)); [| exact H].
  destruct (faiss.add _ _); [reflexivity | exact H].
Qed.

Lemma faiss_add_d ix x ix' : faiss.add ix x = Ok ix' -> faiss.d ix' = faiss.d ix.
Proof.
  unfold faiss.add. destruct x as [|r x]; [discriminate|].
  destruct (_ =? _)%nat; [| discriminate].
  intros H. injection H as <-. reflexivity.
Qed.

Lemma initialised_dimension_fixed batch (self : t) :
  dimension_fixed self -> dimension_fixed (initialised batch self).
Proof.
  unfold dimension_fixed, initialised, extended.
  destruct (dimension self), (index self); simpl; try tauto;
    destruct (filter has_embedding batch); simpl; tauto.
Qed.

Lemma add_chunks_dimension_fixed batch (self : t) :
  dimension_fixed self -> dimension_fixed (fst (add_chunks batch self)).
Proof.
  intros H. apply (initialised_dimension_fixed batch) in H.
  rewrite add_chunks_steps.
  destruct (filter has_embedding batch); [exact H|].
  destruct (np_array _); [| exact H].
  destruct (index (initialised batch self)) as [ix|] eqn:Eix; [| exact H].
  destruct (faiss.add ix _) as [ix'|] eqn:Eadd; [| exact H].
  unfold dimension_fixed in *. simpl. rewrite Eix in H.
  destruct (dimension (initialised batch self)); [| exact H].
  apply faiss_add_d in Eadd. congruence.
Qed.

Lemma reachable_dimension_fixed model (self : t) :
  reachable model self -> dimension_fixed self.
Proof.
  induction 1 as [|self batch _ IH]; [exact I|].
  apply add_chunks_dimension_fixed. exact IH.
Qed.

Lemma np_array_Ok rows x :
  np_array rows = Ok x ->
  x = rows /\ forall r rs, rows = r :: rs -> Forall (fun v => length v = length r) rs.
Proof.
  unfold np_array. destruct rows as [|r rs].
  - intros H. injection H as <-. split; [reflexivity | discriminate].
  - destruct (forallb (fun v => (length v =? length r)%nat) rs) eqn:E;
      [| discriminate].
    intros H. injection H as <-. split; [reflexivity|].
    intros r' rs' Heq. injection Heq as <- <-.
    rewrite forallb_forall in E. apply Forall_forall.
    intros v Hv. apply Nat.eqb_eq. auto.
Qed.

Lemma np_array_Raise rows e : np_array rows = Raise e -> e = ValueError.
Proof.
  unfold np_array. destruct rows as [|r rs]; [discriminate|].
  destruct (forallb (fun v => (length v =? length r)%nat) rs);
    [discriminate | congruence].
Qed.

Lemma In_embeddings_of c v cs :
  In c cs -> embedding c = Some v -> In v (embeddings_of cs).
Proof.
  intros Hc Hv. unfold embeddings_of. apply in_flat_map.
  exists c. split; [exact Hc|]. rewrite Hv. left. reflexivity.
Qed.

(** The first batch with an embedded chunk fixes the dimension from the
    first such chunk. *)
Lemma add_chunks_fixes_dimension (self : t) batch c rest v :
  index self = None ->
  filter has_embedding batch = c :: rest ->
  embedding c = Some v ->
  dimension (fst (add_chunks batch self)) = Some (length v).
Proof.
  intros Hix Hf Hv. rewrite add_chunks_steps.
  assert (Hinit : initialised batch self
                  = mkEngine (embedding_model self) (chunks self ++ batch)
                             (Some (faiss.new (length v))) (Some (length v))).
  { unfold initialised. rewrite Hix, Hf, Hv. reflexivity. }
  rewrite Hf, Hinit. simpl index.
  destruct (np_array _); [| reflexivity].
  destruct (faiss.add _ _); reflexivity.
Qed.

(** A call that returns has added the vectors of the batch behind the
    vectors already there, in the order of the batch. *)
Lemma add_chunks_vectors (self : t) batch :
  snd (add_chunks batch self) = Ok tt ->
  vectors (fst (add_chunks batch self)) = vectors self ++ embeddings_of batch.
Proof.
  rewrite add_chunks_steps. rewrite <- (embeddings_of_valid batch).
  assert (Hinit : vectors (initialised batch self) = vectors self).
  { unfold initialised, extended, vectors.
    destruct (index self); [reflexivity|].
    destruct (filter has_embedding batch); reflexivity. }
  destruct (filter has_embedding batch) as [|c valid].
  - intros _. simpl. now rewrite app_nil_r.
  - destruct (np_array (embeddings_of (c :: valid))) as [x|] eqn:Enp; [| discriminate].
    apply np_array_Ok in Enp. destruct Enp as [-> _].
    unfold vectors in Hinit |- *.
    destruct (index (initialised batch self)) as [ix|]; [| discriminate].
    unfold faiss.add.
    destruct (embeddings_of (c :: valid)) as [|r rs]; [discriminate|].
    destruct (_ =? _)%nat; [| discriminate].
    intros _. simpl. now rewrite Hinit.
Qed.

(** While every inserted chunk is embedded and no call is refused, the
    index and the corpus stay in step. *)
Lemma add_chunks_in_step (self : t) batch :
  in_step self ->
  Forall (fun c => has_embedding c = true) batch ->
  snd (add_chunks batch self) = Ok tt ->
  in_step (fst (add_chunks batch self)).
Proof.
  unfold in_step. intros Hstep Hall Hok.
  rewrite add_chunks_vectors by exact Hok.
  rewrite add_chunks_chunks, !map_app, Hstep. f_equal.
  clear - Hall. induction Hall as [|c cs Hc _ IH]; [reflexivity|].
  unfold has_embedding in Hc. simpl.
  destruct (embedding c); [| discriminate]. simpl. now rewrite IH.
Qed.

(** The engine that a refused batch leaves behind: the chunks of the batch
    are in [self.chunks], the index is as it was. *)
Lemma add_chunks_refused (self : t) (batch : list TranscriptChunk) (e : exn) :
  index self <> None ->
  snd (add_chunks batch self) = Raise e ->
  fst (add_chunks batch self) = extended batch self.
Proof.
  intros Hix. rewrite add_chunks_steps.
  assert (Hinit : initialised batch self = extended batch self).
  { unfold initialised. destruct (index self); [reflexivity | congruence]. }
  rewrite Hinit.
  destruct (filter has_embedding batch); [discriminate|].
  destruct (np_array _); [| reflexivity].
  destruct (index (extended batch self)); [| reflexivity].
  destruct (faiss.add _ _); [discriminate | reflexivity].
Qed.

(** C4. Once the dimension is fixed, [add_chunks] with a chunk whose
    vector has another length raises: [ValueError] from numpy when the batch
    is ragged, [AssertionError] from faiss otherwise; no vector of the batch
    reaches the index. *)
Theorem add_chunks_dimension_mismatch
    (model : string -> ndarray) (self : t) (dim : nat)
    (batch : list TranscriptChunk) (c : TranscriptChunk) (v : ndarray) :
  reachable model self ->
  dimension self = Some dim ->
  In c batch ->
  embedding c = Some v ->
  length v <> dim ->
  (exists e, snd (add_chunks batch self) = Raise e
             /\ is_dimension_mismatch e = true)
  /\ index (fst (add_chunks batch self)) = index self.
Proof.
  intros Hreach Hdim Hc Hv Hlen.
  apply reachable_dimension_fixed in Hreach.
  unfold dimension_fixed in Hreach. rewrite Hdim in Hreach.
  destruct (index self) as [ix|] eqn:Eix; [| contradiction].
  assert (Hraise : exists e, snd (add_chunks batch self) = Raise e
                             /\ is_dimension_mismatch e = true).
  { assert (Hvalid : In v (embeddings_of (filter has_embedding batch))).
    { rewrite embeddings_of_valid. eapply In_embeddings_of; eassumption. }
    rewrite add_chunks_steps.
    assert (Hinit : index (initialised batch self) = Some ix).
    { unfold initialised, extended. rewrite Eix. reflexivity. }
    destruct (filter has_embedding batch) as [|c' valid] eqn:Ef; [destruct Hvalid|].
    destruct (np_array (embeddings_of (c' :: valid))) as [x|e] eqn:Enp.
    - rewrite Hinit. apply np_array_Ok in Enp. destruct Enp as [-> Huniform].
      unfold faiss.add.
      destruct (embeddings_of (c' :: valid)) as [|r rs] eqn:Erows; [destruct Hvalid|].
      assert (Hr : length r = length v).
      { destruct Hvalid as [-> | Hin]; [reflexivity|].
        specialize (Huniform r rs eq_refl). rewrite Forall_forall in Huniform.
        symmetry. auto. }
      destruct (length r =? faiss.d ix)%nat eqn:Ed.
      + apply Nat.eqb_eq in Ed. congruence.
      + exists AssertionError. split; reflexivity.
    - apply np_array_Raise in Enp. subst e.
      exists ValueError. split; reflexivity. }
  split; [exact Hraise|].
  destruct Hraise as [e [He _]].
  rewrite (add_chunks_refused self batch e); [exact Eix | congruence | exact He].
Qed.

(** *** Summaries *)

Lemma Qgtb_false (a b : Q) : Qgtb a b = false <-> a <= b.
Proof.
  unfold Qgtb. rewrite negb_false_iff. apply Qle_bool_iff.
Qed.




(** *** The number of results *)

Lemma top_length k l : length (faiss.top k l) = k.
Proof.
  unfold faiss.top. rewrite length_app, repeat_length.
  pose proof (firstn_le_length k l). lia.
Qed.

(** Whenever [search] gets as far as the index it returns [top_k] results,
    however few vectors the index holds. *)
Lemma search_result_count (self : t) (query : string) (k : Z) rs :
  chunks self <> [] ->
  index self <> None ->
  snd (search query k self) = Ok rs ->
  length rs = Z.to_nat k.
Proof.
  intros Hc Hix. unfold search. run_method.
  apply truthy_true in Hc. rewrite Hc.
  destruct (index self) as [ix|]; [| congruence]. simpl.
  unfold faiss.search.
  destruct (negb _); [discriminate|].
  destruct (negb _); [discriminate|]. simpl.
  intros H. apply collect_length in H. rewrite H. simpl.
  rewrite length_combine, !length_map, top_length. lia.
Qed.

(** Before any insertion [search] returns the empty list. *)
Lemma search_new_engine (model : string -> ndarray) (query : string) (k : Z) :
  search query k (init model) = (init model, Ok []).
Proof. reflexivity. Qed.

(** *** The ranking *)

(** The lists that the ranking builds are in decreasing order of score. *)
Lemma insert_desc_sorted {A : Type} (e : Q * A) l :
  StronglySorted (fun a b => fst b <= fst a) l ->
  StronglySorted (fun a b => fst b <= fst a) (faiss.insert_desc e l).
Proof.
  induction l as [|e' l IH]; intros Hs; simpl.
  - constructor; constructor.
  - apply StronglySorted_inv in Hs. destruct Hs as [Hs Hall].
    destruct (Qgtb (fst e) (fst e')) eqn:Egt.
    + apply Qgtb_true in Egt. constructor.
      * constructor; assumption.
      * constructor; [apply Qlt_le_weak; exact Egt|].
        eapply Forall_impl; [| exact Hall]. simpl. intros a Ha.
        eapply Qle_trans; [exact Ha | apply Qlt_le_weak; exact Egt].
    + apply Qgtb_false in Egt. constructor; [auto|].
      clear IH Hs. induction l as [|e'' l IHl]; simpl.
      * constructor; [exact Egt | constructor].
      * inversion Hall; subst.
        destruct (Qgtb (fst e) (fst e'')); constructor; auto.
Qed.

Lemma insert_desc_length {A : Type} (e : Q * A) l :
  length (faiss.insert_desc e l) = S (length l).
Proof.
  induction l as [|e' l IH]; [reflexivity|].
  simpl. destruct (Qgtb _ _); simpl; [reflexivity | now rewrite IH].
Qed.

Lemma ranked_length {A : Type} (l : list (Q * A)) :
  length (faiss.ranked l) = length l.
Proof.
  unfold faiss.ranked.
  assert (H : forall acc,
             length (fold_left (fun acc e => faiss.insert_desc e acc) l acc)
             = (length acc + length l)%nat).
  { induction l as [|e l IH]; intros acc; simpl; [lia|].
    rewrite IH, insert_desc_length. lia. }
  apply (H []).
Qed.

Lemma insert_desc_Forall {A : Type} (P : Q * A -> Prop) (e : Q * A) l :
  P e -> Forall P l -> Forall P (faiss.insert_desc e l).
Proof.
  intros He. induction 1 as [|e' l He' Hl IH]; simpl.
  - constructor; [exact He | constructor].
  - destruct (Qgtb _ _); constructor; auto.
Qed.

Lemma ranked_Forall {A : Type} (P : Q * A -> Prop) (l : list (Q * A)) :
  Forall P l -> Forall P (faiss.ranked l).
Proof.
  unfold faiss.ranked.
  assert (H : forall acc, Forall P acc -> Forall P l ->
             Forall P (fold_left (fun acc e => faiss.insert_desc e acc) l acc)).
  { induction l as [|e l IH]; intros acc Hacc Hl; simpl; [exact Hacc|].
    inversion Hl; subst. apply IH; [| assumption].
    apply insert_desc_Forall; assumption. }
  apply H. constructor.
Qed.

Lemma insert_desc_perm {A : Type} (e : Q * A) l :
  Permutation (faiss.insert_desc e l) (e :: l).
Proof.
  induction l as [|e' l IH]; simpl; [apply Permutation_refl|].
  destruct (Qgtb (fst e) (fst e')); [apply Permutation_refl|].
  eapply Permutation_trans; [apply perm_skip; exact IH | apply perm_swap].
Qed.

Lemma ranked_perm {A : Type} (l : list (Q * A)) : Permutation (faiss.ranked l) l.
Proof.
  unfold faiss.ranked.
  assert (H : forall acc,
             Permutation (fold_left (fun acc e => faiss.insert_desc e acc) l acc)
                         (acc ++ l)).
  { induction l as [|e l IH]; intros acc; simpl.
    - rewrite app_nil_r. apply Permutation_refl.
    - eapply Permutation_trans; [apply IH|].
      eapply Permutation_trans;
        [apply Permutation_app_tail; apply insert_desc_perm|].
      simpl. apply Permutation_middle. }
  apply (H []).
Qed.

Lemma ranked_descending {A : Type} (l : list (Q * A)) : descending (faiss.ranked l).
Proof.
  unfold faiss.ranked, descending.
  assert (H : forall acc,
             StronglySorted (fun a b : Q * A => fst b <= fst a) acc ->
             StronglySorted (fun a b : Q * A => fst b <= fst a)
               (fold_left (fun acc e => faiss.insert_desc e acc) l acc)).
  { induction l as [|e l IH]; intros acc Hacc; simpl; [exact Hacc|].
    apply IH. apply insert_desc_sorted. exact Hacc. }
  apply H. constructor.
Qed.

Lemma combine_fst_snd {A B : Type} (l : list (A * B)) :
  combine (map fst l) (map snd l) = l.
Proof.
  induction l as [|[a b] l IH]; [reflexivity|]. simpl. now rewrite IH.
Qed.

Lemma map_on_payload_combine {A B : Type} (g : A -> B) (xs : list Q) (ys : list A) :
  map (on_payload g) (combine xs ys) = combine xs (map g ys).
Proof.
  revert ys. induction xs as [|x xs IH]; intros [|y ys]; simpl; try reflexivity.
  now rewrite IH.
Qed.

Lemma Forall_firstn {A : Type} (P : A -> Prop) (n : nat) (l : list A) :
  Forall P l -> Forall P (firstn n l).
Proof.
  revert n. induction l as [|a l IH]; intros [|n] H; simpl; try constructor.
  - inversion H; assumption.
  - apply IH. inversion H; assumption.
Qed.

Lemma nth_labels {A : Type} (cs : list A) (dflt : A) :
  map (fun i => nth (Z.to_nat i) cs dflt) (map Z.of_nat (seq 0 (length cs))) = cs.
Proof.
  rewrite map_map.
  rewrite (map_ext _ (fun i => nth i cs dflt))
    by (intros i; now rewrite Nat2Z.id).
  induction cs as [|c cs IH]; [reflexivity|].
  simpl length. cbn [seq map nth]. f_equal.
  rewrite <- seq_shift, map_map. exact IH.
Qed.

Lemma getitem_nth {A : Type} (cs : list A) (i : Z) (dflt : A) :
  (0 <= i < Z.of_nat (length cs))%Z ->
  getitem cs i = Ok (nth (Z.to_nat i) cs dflt).
Proof.
  intros [H0 Hn]. unfold getitem.
  assert (Hneg : (i <? 0)%Z = false) by (apply Z.ltb_ge; exact H0).
  rewrite Hneg.
  assert (Hin : ((0 <=? i) && (i <? Z.of_nat (length cs)))%Z = true).
  { apply andb_true_iff. split; [apply Z.leb_le | apply Z.ltb_lt]; assumption. }
  rewrite Hin.
  destruct (nth_error cs (Z.to_nat i)) eqn:E.
  - f_equal. symmetry. apply nth_error_nth. exact E.
  - apply nth_error_None in E. lia.
Qed.

(** With labels inside the corpus the result loop is a map. *)
Lemma collect_records cs hits acc (self : t) :
  Forall (fun h => (0 <= snd h < Z.of_nat (length cs))%Z) hits ->
  snd (collect cs hits acc self) = Ok (acc ++ map (record_at cs) hits).
Proof.
  intros H. revert acc. induction H as [|[score idx] hits Hh _ IH]; intros acc; simpl.
  - now rewrite app_nil_r.
  - run_method. simpl in Hh.
    rewrite (getitem_nth cs idx (mkChunk "" 0 0 "" None) Hh).
    rewrite IH, <- app_assoc. reflexivity.
Qed.

Lemma scored_labels ix q :
  Forall (fun h => (0 <= snd h < Z.of_nat (length (faiss.xb ix)))%Z)
         (faiss.scored ix q).
Proof.
  apply Forall_forall. intros [score idx] Hin. unfold faiss.scored in Hin.
  apply in_combine_r in Hin. apply in_map_iff in Hin.
  destruct Hin as [n [<- Hn]]. apply in_seq in Hn. simpl. lia.
Qed.

Lemma in_step_vectors vs cs :
  map Some vs = map embedding cs ->
  vs = map vector_of cs /\ Forall (fun c => has_embedding c = true) cs.
Proof.
  revert vs. induction cs as [|c cs IH]; intros [|v vs] H; simpl in H; try discriminate.
  - split; [reflexivity | constructor].
  - injection H as Hc Hrest. destruct (IH vs Hrest) as [-> Hall].
    split.
    + simpl. unfold vector_of. now rewrite <- Hc.
    + constructor; [| exact Hall]. unfold has_embedding. now rewrite <- Hc.
Qed.

Lemma combine_scores q cs :
  combine (map (faiss.inner_product q) (map vector_of cs)) cs
  = map (chunk_score q) cs.
Proof.
  induction cs as [|c cs IH]; [reflexivity|]. simpl. now rewrite IH.
Qed.

Lemma embeddings_of_embedded cs :
  Forall (fun c => has_embedding c = true) cs ->
  filter has_embedding cs = cs /\ embeddings_of cs = map vector_of cs.
Proof.
  induction 1 as [|c cs Hc _ [IH1 IH2]]; [split; reflexivity|].
  simpl. rewrite Hc, IH1. split; [reflexivity|].
  unfold has_embedding in Hc. unfold vector_of at 1.
  destruct (embedding c); [| discriminate]. simpl. now rewrite IH2.
Qed.

Lemma np_array_uniform (n : nat) rows :
  Forall (fun v => length v = n) rows -> np_array rows = Ok rows.
Proof.
  intros H. destruct rows as [|r rs]; [reflexivity|].
  inversion H as [|? ? Hr Hrs]; subst. unfold np_array.
  assert (E : forallb (fun v => (length v =? length r)%nat) rs = true).
  { apply forallb_forall. intros v Hv. rewrite Forall_forall in Hrs.
    apply Nat.eqb_eq. now apply Hrs. }
  now rewrite E.
Qed.

Lemma top_enough k l : (k <= length l)%nat -> faiss.top k l = firstn k l.
Proof.
  intros H. unfold faiss.top. rewrite length_firstn.
  replace (k - Nat.min k (length l))%nat with 0%nat by lia.
  simpl. apply app_nil_r.
Qed.

(** The tie order rearranges the scored positions and loses none. *)
Lemma insert_rank_perm rank e l : Permutation (faiss.insert_rank rank e l) (e :: l).
Proof.
  induction l as [|e' l IH]; simpl; [apply Permutation_refl|].
  destruct (_ <? _)%Z; [apply Permutation_refl|].
  eapply Permutation_trans; [apply perm_skip; exact IH | apply perm_swap].
Qed.

Lemma arranged_perm k (l : list (Q * Z)) : Permutation (faiss.arranged k l) l.
Proof.
  unfold faiss.arranged. generalize (faiss.tie_rank k (map fst l)) as rank. intros rank.
  assert (H : forall acc,
             Permutation (fold_left (fun acc e => faiss.insert_rank rank e acc) l acc)
                         (acc ++ l)).
  { induction l as [|e l IH]; intros acc; simpl.
    - rewrite app_nil_r. apply Permutation_refl.
    - eapply Permutation_trans; [apply IH|].
      eapply Permutation_trans;
        [apply Permutation_app_tail; apply insert_rank_perm|].
      simpl. apply Permutation_middle. }
  apply (H []).
Qed.

Lemma arranged_length k (l : list (Q * Z)) : length (faiss.arranged k l) = length l.
Proof. apply Permutation_length, arranged_perm. Qed.

Lemma arranged_Forall (P : Q * Z -> Prop) k l :
  Forall P l -> Forall P (faiss.arranged k l).
Proof.
  intros H. eapply Permutation_Forall; [| exact H].
  apply Permutation_sym, arranged_perm.
Qed.

(** What the index returns when it holds at least [k] vectors. *)
Lemma faiss_search_enough ix q k :
  length q = faiss.d ix ->
  (0 < k <= Z.of_nat (length (faiss.xb ix)))%Z ->
  faiss.search ix q k
  = Ok (map fst (firstn (Z.to_nat k)
                        (faiss.ranked (faiss.arranged k (faiss.scored ix q)))),
        map snd (firstn (Z.to_nat k)
                        (faiss.ranked (faiss.arranged k (faiss.scored ix q))))).
Proof.
  intros Hq [Hk0 Hkn]. unfold faiss.search.
  apply Nat.eqb_eq in Hq. rewrite Hq.
  apply Z.ltb_lt in Hk0. rewrite Hk0. simpl.
  rewrite top_enough; [reflexivity|].
  rewrite ranked_length, arranged_length. unfold faiss.scored.
  rewrite length_combine, !length_map, length_seq. lia.
Qed.

(** The records for the [n] best of an index over the vectors of [cs]. *)
Lemma ranked_records ix q k n cs :
  faiss.xb ix = map vector_of cs ->
  map (record_at cs) (firstn n (faiss.ranked (faiss.arranged k (faiss.scored ix q))))
  = firstn n (map record_of (corpus_ranking k q cs)).
Proof.
  intros Hxb. rewrite <- firstn_map. f_equal.
  unfold corpus_ranking. rewrite map_map.
  unfold faiss.scored. simpl faiss.xb. rewrite Hxb. reflexivity.
Qed.

Lemma ranked_labels ix q k n cs :
  faiss.xb ix = map vector_of cs ->
  Forall (fun h => (0 <= snd h < Z.of_nat (length cs))%Z)
         (firstn n (faiss.ranked (faiss.arranged k (faiss.scored ix q)))).
Proof.
  intros Hxb. apply Forall_firstn, ranked_Forall, arranged_Forall.
  pose proof (scored_labels ix q) as H.
  now rewrite Hxb, length_map in H.
Qed.

Lemma ranking_length k q cs : length (corpus_ranking k q cs) = length cs.
Proof.
  unfold corpus_ranking, faiss.scored. simpl faiss.xb.
  rewrite length_map, ranked_length, arranged_length.
  rewrite length_combine, !length_map, length_seq. lia.
Qed.

(** The ranking holds every chunk of the corpus once, with its score. *)
Lemma ranking_perm k q cs : Permutation (corpus_ranking k q cs) (map (chunk_score q) cs).
Proof.
  unfold corpus_ranking.
  eapply Permutation_trans.
  { apply Permutation_map.
    eapply Permutation_trans; [apply ranked_perm | apply arranged_perm]. }
  unfold faiss.scored. simpl faiss.xb.
  rewrite map_on_payload_combine, length_map.
  unfold chunk_at. rewrite nth_labels, combine_scores.
  apply Permutation_refl.
Qed.

(** The ranking is in non-increasing order of score. *)
Lemma ranking_descending k q cs : descending (corpus_ranking k q cs).
Proof.
  unfold corpus_ranking.
  generalize (ranked_descending
                (faiss.arranged k
                   (faiss.scored (faiss.mkIndex (length q) (map vector_of cs)) q))).
  generalize (faiss.ranked
                (faiss.arranged k
                   (faiss.scored (faiss.mkIndex (length q) (map vector_of cs)) q))).
  unfold descending. induction 1 as [|e l Hl IH He]; simpl; constructor.
  - exact IH.
  - apply Forall_map. exact He.
Qed.

(** [search] for as many results as there are chunks, on a well-formed
    engine: all chunks, ranked. *)
Lemma search_all (self : t) (query : string) (dim : nat) :
  well_formed self ->
  chunks self <> [] ->
  dimension self = Some dim ->
  length (embedding_model self query) = dim ->
  snd (search query (Z.of_nat (length (chunks self))) self)
  = Ok (map record_of
            (corpus_ranking (Z.of_nat (length (chunks self)))
                     (embedding_model self query) (chunks self))).
Proof.
  intros [Hstep [ix [Hix [Hdim Hwidth]]]] Hne Hd Hq.
  unfold in_step, vectors in Hstep. rewrite Hix in Hstep.
  apply in_step_vectors in Hstep. destruct Hstep as [Hxb _].
  assert (Hd' : faiss.d ix = dim) by congruence.
  unfold search. run_method.
  apply truthy_true in Hne. rewrite Hne, Hix. simpl.
  rewrite faiss_search_enough.
  - simpl. rewrite combine_fst_snd.
    rewrite collect_records by (apply ranked_labels; exact Hxb).
    simpl. rewrite ranked_records by exact Hxb.
    rewrite Nat2Z.id. f_equal. apply firstn_all2.
    rewrite length_map, ranking_length. lia.
  - congruence.
  - rewrite Hxb, length_map. apply truthy_true in Hne.
    destruct (chunks self); [congruence | simpl; lia].
Qed.

(** [search_by_video] for at most as many results as the video has chunks,
    on a well-formed engine: the [top_k] best chunks of the video. *)
Lemma search_by_video_top (self : t) (vid query : string) (k : Z) (dim : nat) :
  well_formed self ->
  dimension self = Some dim ->
  length (embedding_model self query) = dim ->
  (0 < k <= Z.of_nat (length (video_chunks_of vid (chunks self))))%Z ->
  snd (search_by_video vid query k self)
  = Ok (firstn (Z.to_nat k)
          (map record_of
               (corpus_ranking k (embedding_model self query)
                        (video_chunks_of vid (chunks self))))).
Proof.
  intros [Hstep [ix [Hix [Hdim Hwidth]]]] Hd Hq Hk.
  unfold in_step, vectors in Hstep. rewrite Hix in Hstep.
  apply in_step_vectors in Hstep. destruct Hstep as [Hxb Hall].
  assert (Hd' : faiss.d ix = dim) by congruence.
  set (cs := video_chunks_of vid (chunks self)) in *.
  assert (Hsub : Forall (fun c => has_embedding c = true) cs).
  { apply Forall_forall. intros c Hc. rewrite Forall_forall in Hall.
    apply Hall. eapply incl_filter. exact Hc. }
  assert (Hvec : Forall (fun v => length v = dim) (map vector_of cs)).
  { apply Forall_forall. intros v Hv. apply in_map_iff in Hv.
    destruct Hv as [c [<- Hc]]. rewrite Forall_forall in Hwidth.
    rewrite <- Hd'. apply Hwidth. rewrite Hxb. apply in_map.
    eapply incl_filter. exact Hc. }
  destruct (embeddings_of_embedded cs Hsub) as [Hvalid Hemb].
  assert (Hne : cs <> []) by (destruct cs; [simpl in Hk; lia | discriminate]).
  unfold search_by_video.
  unfold bind, get, lift, ret, raise. cbv beta iota zeta. fold cs.
  apply truthy_true in Hne. rewrite Hne, Hd.
  rewrite Hvalid, Hne, Hemb, (np_array_uniform dim) by exact Hvec.
  assert (Hadd : faiss.add (faiss.new dim) (map vector_of cs)
                 = Ok (faiss.mkIndex dim (map vector_of cs))).
  { unfold faiss.add. destruct (map vector_of cs) as [|r rs] eqn:E.
    - destruct cs; discriminate.
    - inversion Hvec as [|? ? Hr _]. simpl.
      apply Nat.eqb_eq in Hr. now rewrite Hr. }
  rewrite Hadd. change (negb true) with false. cbv beta iota.
  rewrite faiss_search_enough; [| exact Hq | simpl; now rewrite length_map].
  cbv beta iota. simpl fst. simpl snd. rewrite combine_fst_snd.
  rewrite collect_records by (apply ranked_labels; reflexivity).
  simpl. now rewrite ranked_records by reflexivity.
Qed.

(** *** The scoped search and the corpus filtered first *)

(** X23. Whatever the state of the engine, every record that
    [search_by_video] returns carries the requested video id, and for a
    video without chunks the method returns the empty list. *)
Theorem search_by_video_of_video (self : t) (vid query : string) (k : Z) :
  (forall rs, snd (search_by_video vid query k self) = Ok rs ->
              Forall (fun r => r_video_id r = vid) rs)
  /\ (video_chunks_of vid (chunks self) = [] ->
      search_by_video vid query k self = (self, Ok [])).
Proof.
  split.
  - intros rs. unfold search_by_video. run_method.
    destruct (negb (truthy (video_chunks_of vid (chunks self)))).
    { intros E. injection E as <-. constructor. }
    destruct (dimension self) as [dim|]; [| discriminate].
    assert (Hloop : forall hits,
               snd (collect (video_chunks_of vid (chunks self)) hits [] self) = Ok rs ->
               Forall (fun r => r_video_id r = vid) rs).
    { intros hits. apply collect_Forall; [| constructor].
      intros c score Hc. simpl. eapply video_chunks_of_id. exact Hc. }
    destruct (truthy (filter has_embedding _)); simpl.
    + destruct (np_array _); simpl; [| discriminate].
      destruct (faiss.add _ _); [| discriminate].
      destruct (faiss.search _ _ k); [apply Hloop | discriminate].
    + destruct (faiss.search _ _ k); [apply Hloop | discriminate].
  - intros E. unfold search_by_video. run_method. now rewrite E.
Qed.

(** X24. When the video has an embedded chunk and [self.dimension] is the
    length of the first embedded chunk's vector, [search_by_video] returns
    (or raises) what [search] returns (or raises) on an engine that was given
    the chunks of the video only, in the order of the corpus. *)
Theorem search_by_video_filters_first
    (self : t) (vid query : string) (k : Z) (v : ndarray) (vs : list ndarray) :
  embeddings_of (video_chunks_of vid (chunks self)) = v :: vs ->
  dimension self = Some (length v) ->
  search_by_video vid query k self = (self, query_scoped vid query k self).
Proof.
  intros Hemb Hdim.
  unfold query_scoped. fold (video_chunks_of vid (chunks self)).
  set (cs := video_chunks_of vid (chunks self)) in *.
  assert (Hcs : truthy cs = true) by (destruct cs; [discriminate | reflexivity]).
  assert (Hvalid : exists c valid,
             filter has_embedding cs = c :: valid /\ embedding c = Some v).
  { clear Hcs. induction cs as [|c cs IH]; [discriminate|].
    simpl in Hemb. simpl. unfold has_embedding at 1.
    destruct (embedding c) as [w|] eqn:Ec; simpl.
    - injection Hemb as -> _. now exists c, (filter has_embedding cs).
    - apply IH. exact Hemb. }
  destruct Hvalid as [c [valid [Hfilter Hc]]].
  unfold search_by_video. unfold bind, get, lift, ret, raise.
  cbv beta iota zeta. fold cs.
  rewrite Hcs, Hdim. change (negb true) with false. cbv iota.
  assert (Hv : truthy (filter has_embedding cs) = true) by now rewrite Hfilter.
  rewrite Hv.
  rewrite add_chunks_steps.
  change (chunks (init (embedding_model self)) ++ cs) with cs.
  assert (Hinit : initialised cs (init (embedding_model self))
                  = mkEngine (embedding_model self) cs
                             (Some (faiss.new (length v))) (Some (length v))).
  { unfold initialised. simpl index. rewrite Hfilter, Hc. reflexivity. }
  rewrite Hinit, Hfilter. simpl truthy. cbv iota.
  rewrite <- Hfilter.
  destruct (np_array (embeddings_of (filter has_embedding cs))) as [x|e];
    [| reflexivity].
  simpl index. cbv beta iota.
  destruct (faiss.add (faiss.new (length v)) x) as [temp|e]; [| reflexivity].
  unfold search. unfold bind, get, lift, ret, raise. cbv beta iota zeta.
  cbn [chunks index embedding_model dimension init is_None].
  rewrite Hcs. cbn [negb orb].
  destruct (faiss.search temp (embedding_model self query) k) as [si|e];
    [apply collect_eq | reflexivity].
Qed.

(** *** The scoped search against the global search *)

(** Two lists in non-increasing order of score that hold the same entries
    are one list when no two entries have the same score. *)
Lemma descending_unique {A : Type} (l1 l2 : list (Q * A)) :
  Permutation l1 l2 ->
  descending l1 ->
  descending l2 ->
  NoDup (map (fun e => Qred (fst e)) l1) ->
  l1 = l2.
Proof.
  revert l2. induction l1 as [|a t1 IH]; intros l2 Hp H1 H2 Hnd.
  - apply Permutation_nil in Hp. now subst.
  - destruct l2 as [|b t2].
    { apply Permutation_sym, Permutation_nil in Hp. discriminate. }
    assert (Hab : a = b).
    { assert (Ha : In a (b :: t2))
        by (eapply Permutation_in; [exact Hp | left; reflexivity]).
      assert (Hb : In b (a :: t1))
        by (eapply Permutation_in; [apply Permutation_sym; exact Hp | left; reflexivity]).
      destruct Ha as [Ha | Ha]; [now symmetry|].
      destruct Hb as [Hb | Hb]; [exact Hb|].
      exfalso.
      apply StronglySorted_inv in H1. destruct H1 as [_ H1].
      apply StronglySorted_inv in H2. destruct H2 as [_ H2].
      rewrite Forall_forall in H1, H2.
      assert (E : fst a == fst b)
        by (apply Qle_antisym; [apply H2; exact Ha | apply H1; exact Hb]).
      apply Qred_complete in E.
      simpl in Hnd. inversion Hnd as [|? ? Hnotin _]; subst.
      apply Hnotin. rewrite E.
      apply (in_map (fun e => Qred (fst e))). exact Hb. }
    subst b. f_equal. apply IH.
    + eapply Permutation_cons_inv. exact Hp.
    + apply StronglySorted_inv in H1. apply H1.
    + apply StronglySorted_inv in H2. apply H2.
    + simpl in Hnd. inversion Hnd. assumption.
Qed.

Lemma filter_perm {A : Type} (p : A -> bool) (l1 l2 : list A) :
  Permutation l1 l2 -> Permutation (filter p l1) (filter p l2).
Proof.
  induction 1 as [| x l1 l2 _ IH | x y l | l1 l2 l3 _ IH1 _ IH2]; simpl.
  - apply Permutation_refl.
  - destruct (p x); [apply perm_skip|]; exact IH.
  - destruct (p x), (p y); try apply Permutation_refl. apply perm_swap.
  - eapply Permutation_trans; eassumption.
Qed.

Lemma filter_descending {A : Type} (p : Q * A -> bool) (l : list (Q * A)) :
  descending l -> descending (filter p l).
Proof.
  unfold descending. induction 1 as [|e l _ IH He]; simpl; [constructor|].
  destruct (p e); [| exact IH].
  constructor; [exact IH|].
  apply Forall_forall. intros x Hx. apply filter_In in Hx.
  rewrite Forall_forall in He. apply He. apply Hx.
Qed.

(** X22. On a well-formed engine in which no two chunks of the video have the
    same score against the query, the scoped search agrees with the global
    one: its results are the first [top_k] of the results of [search] for the
    whole corpus that carry the video id. *)
Theorem search_by_video_consistent
    (self : t) (vid query : string) (k : Z) (dim : nat) :
  well_formed self ->
  dimension self = Some dim ->
  length (embedding_model self query) = dim ->
  (0 < k <= Z.of_nat (length (video_chunks_of vid (chunks self))))%Z ->
  distinct_scores (embedding_model self query) (video_chunks_of vid (chunks self)) ->
  exists rs,
    snd (search query (Z.of_nat (length (chunks self))) self) = Ok rs
    /\ snd (search_by_video vid query k self)
       = Ok (firstn (Z.to_nat k)
                    (filter (fun r => String.eqb (r_video_id r) vid) rs)).
Proof.
  intros Hwf Hd Hq Hk Hdistinct.
  assert (Hne : chunks self <> []).
  { intros E. rewrite E in Hk. simpl in Hk. lia. }
  eexists. split; [apply (search_all self query dim); assumption|].
  rewrite (search_by_video_top self vid query k dim) by assumption.
  f_equal. f_equal.
  rewrite filter_map_swap. f_equal.
  set (q := embedding_model self query).
  set (p := fun sc : Q * TranscriptChunk => String.eqb (video_id (snd sc)) vid).
  assert (Hscores : filter p (map (chunk_score q) (chunks self))
                    = map (chunk_score q) (video_chunks_of vid (chunks self))).
  { unfold video_chunks_of. now rewrite filter_map_swap. }
  apply descending_unique.
  - eapply Permutation_trans; [apply ranking_perm|].
    rewrite <- Hscores. apply filter_perm, Permutation_sym, ranking_perm.
  - apply ranking_descending.
  - apply filter_descending, ranking_descending.
  - eapply Permutation_NoDup.
    + apply Permutation_map, Permutation_sym, ranking_perm.
    + rewrite map_map. exact Hdistinct.
Qed.

End Engine.

(** C2 at an engine that holds one chunk, asked for two results: the code
    returns two records, the second one being the last chunk of the corpus
    again with the score of a missing result. *)
Theorem search_pads_missing_results {ties : faiss.TieOrder} :
  option_map faiss.ntotal (E.index engine_one_chunk) = Some 1%nat
  /\ E.search "linear" 2 engine_one_chunk
     = (engine_one_chunk,
        Ok [E.result_of chunk_regression 1;
            E.result_of chunk_regression faiss.neg_FLT_MAX]).
Proof. split; reflexivity. Qed.

(** C1 at the batch of a chunk without embedding followed by an embedded
    chunk: both chunks are in the corpus, the index holds one vector, and the
    vector at position 0 belongs to the chunk at position 1, so that [search]
    reports the text of the chunk without embedding. *)
Theorem add_chunks_keeps_unembedded {ties : faiss.TieOrder} :
  E.add_chunks [chunk_plain; chunk_regression] (E.init demo_model)
  = (E.mkEngine demo_model [chunk_plain; chunk_regression]
                (Some (faiss.mkIndex 3 [[0; 1; 0]])) (Some 3%nat),
     Ok tt)
  /\ ~ aligned engine_misaligned
  /\ E.search "linear" 1 engine_misaligned
     = (engine_misaligned, Ok [E.result_of chunk_plain 1]).
Proof.
  split; [reflexivity |]. split; [| reflexivity].
  intros H. destruct (H 0%nat [0; 1; 0] eq_refl) as [c [Hc He]].
  injection Hc as <-. discriminate He.
Qed.

(** C3 at an engine in which [video_002] has one chunk, without embedding,
    beside an embedded chunk of [video_001]: the corpus filtered to
    [video_002] holds no vector, and searching the filtered corpus returns
    the empty list; [search_by_video] returns two records, both of them the
    chunk without embedding with the score of a missing result. *)
Theorem search_by_video_pads_filtered_corpus {ties : faiss.TieOrder} :
  reachable demo_model engine_unembedded_video
  /\ E.embeddings_of (E.video_chunks_of "video_002" (E.chunks engine_unembedded_video))
     = []
  /\ query_scoped "video_002" "deep" 2 engine_unembedded_video = Ok []
  /\ E.search_by_video "video_002" "deep" 2 engine_unembedded_video
     = (engine_unembedded_video,
        Ok [E.result_of chunk_plain faiss.neg_FLT_MAX;
            E.result_of chunk_plain faiss.neg_FLT_MAX]).
Proof.
  split; [apply reachable_add, reachable_init|].
  split; [reflexivity|]. split; reflexivity.
Qed.

Lemma add_chunks_dimension_mismatch_witness :
  (reachable demo_model engine_001 /\ E.dimension engine_001 = Some 3%nat)
  /\ (exists e,
         snd (E.add_chunks [chunk_plain; chunk_short_vector] engine_001) = Raise e
         /\ is_dimension_mismatch e = true)
  /\ E.index (fst (E.add_chunks [chunk_plain; chunk_short_vector] engine_001))
     = E.index engine_001.
Proof.
  split; [split; [apply reachable_add; apply reachable_init | reflexivity] |].
  apply (add_chunks_dimension_mismatch demo_model engine_001 3
           [chunk_plain; chunk_short_vector] chunk_short_vector [1; 0]).
  - apply reachable_add. apply reachable_init.
  - reflexivity.
  - right. left. reflexivity.
  - reflexivity.
  - simpl. discriminate.
Defined.

(** The engine of the three chunks of [video_001] is well formed. *)
Example engine_001_well_formed : well_formed engine_001.
Proof.
  split; [reflexivity|].
  eexists. split; [reflexivity|]. split; [reflexivity|].
  repeat constructor.
Qed.

(** * More on the chunker *)

Section ChunkerMore.

Import TranscriptProcessor.

Variable vid : string.
Variable chunk_duration : Q.

Local Abbreviation run := (fold_left (loop_body vid chunk_duration)).

(** 1 for a chunk under construction, 0 for an empty buffer. *)
Local Abbreviation pending st := (if truthy (current_chunk_text st) then 1%nat else 0%nat).

Lemma run_count segs st :
  (length (chunks (run segs st)) + pending (run segs st)
   <= length (chunks st) + pending st + length segs)%nat.
Proof.
  revert st. induction segs as [|s segs IH]; intros st; simpl fold_left; [simpl; lia|].
  eapply Nat.le_trans; [apply IH|]. simpl length.
  unfold loop_body.
  destruct (Qgtb _ _ && truthy (current_chunk_text st)) eqn:C; simpl.
  - apply andb_true_iff in C. destruct C as [_ C]. rewrite C.
    rewrite length_app. simpl. lia.
  - rewrite truthy_app_r. destruct (truthy (current_chunk_text st)); lia.
Qed.

(** X1. [chunk_transcript] returns at most one chunk per segment, and at
    least one chunk for a non-empty input. *)
Theorem chunk_transcript_count (segments : list Segment) :
  (length (chunk_transcript segments vid chunk_duration) <= length segments)%nat
  /\ (segments <> [] ->
      (1 <= length (chunk_transcript segments vid chunk_duration))%nat).
Proof.
  split.
  - pose proof (run_count segments (loop_init segments)) as H.
    unfold chunk_transcript, add_last_chunk. simpl in H.
    destruct (truthy (current_chunk_text (run segments (loop_init segments))));
      [rewrite length_app; simpl; lia | lia].
  - intros Hne. destruct segments as [|s segs]; [congruence|].
    rewrite chunk_transcript_nonempty, length_app. simpl. lia.
Qed.

Lemma run_first_start (a : Q) segs st :
  match chunks st with
  | [] => current_start_time st = a
  | c :: _ => start_time c = a
  end ->
  match chunks (run segs st) with
  | [] => current_start_time (run segs st) = a
  | c :: _ => start_time c = a
  end.
Proof.
  revert st. induction segs as [|s segs IH]; intros st H; simpl fold_left; [exact H|].
  apply IH. unfold loop_body.
  destruct (Qgtb _ _ && truthy _); simpl; [| exact H].
  destruct (chunks st); simpl; exact H.
Qed.

Lemma run_starts (all : list Segment) segs st :
  (forall s, In s segs -> In s all) ->
  (exists s, In s all /\ current_start_time st = seg_start s) ->
  Forall (fun c => exists s, In s all /\ start_time c = seg_start s) (chunks st) ->
  Forall (fun c => exists s, In s all /\ start_time c = seg_start s)
         (chunks (run segs st))
  /\ exists s, In s all /\ current_start_time (run segs st) = seg_start s.
Proof.
  revert st. induction segs as [|s segs IH]; intros st Hsub Hcs Hc; simpl fold_left;
    [split; assumption|].
  apply IH; [intros s' Hs'; apply Hsub; right; exact Hs' | |];
    unfold loop_body; destruct (Qgtb _ _ && truthy _); simpl; try assumption.
  - exists s. split; [apply Hsub; left|]; reflexivity.
  - apply Forall_app. split; [exact Hc|]. constructor; [exact Hcs | constructor].
Qed.

(** X2. For a non-empty input the first chunk starts at the start of the
    first segment, and every chunk starts at the start of some segment. *)
Theorem chunk_transcript_starts (s0 : Segment) (rest : list Segment) :
  (exists c tail,
      chunk_transcript (s0 :: rest) vid chunk_duration = c :: tail
      /\ start_time c = seg_start s0)
  /\ Forall (fun c => exists s, In s (s0 :: rest) /\ start_time c = seg_start s)
            (chunk_transcript (s0 :: rest) vid chunk_duration).
Proof.
  rewrite chunk_transcript_nonempty. split.
  - pose proof (run_first_start (seg_start s0) (s0 :: rest) (loop_init (s0 :: rest))
                  eq_refl) as H.
    destruct (chunks (run (s0 :: rest) (loop_init (s0 :: rest)))) as [|c cs].
    + eexists _, []. split; [reflexivity | exact H].
    + eexists c, _. split; [reflexivity | exact H].
  - destruct (run_starts (s0 :: rest) (s0 :: rest) (loop_init (s0 :: rest)))
      as [Hc Hcs]; [auto | | constructor |].
    + exists s0. split; [left|]; reflexivity.
    + apply Forall_app. split; [exact Hc|]. constructor; [exact Hcs | constructor].
Qed.

Lemma run_fits segs st :
  (forall s, In s segs -> seg_end s - current_start_time st <= chunk_duration) ->
  run segs st
  = mkLocals (chunks st)
             (current_chunk_text st ++ map (fun s => strip (seg_text s)) segs)
             (current_start_time st).
Proof.
  revert st. induction segs as [|s segs IH]; intros st H; simpl fold_left.
  - simpl. rewrite app_nil_r. destruct st; reflexivity.
  - assert (Hs : Qgtb (seg_end s - current_start_time st) chunk_duration = false)
      by (apply Qgtb_false; apply H; left; reflexivity).
    unfold loop_body at 2. rewrite Hs. simpl andb. cbv iota.
    rewrite IH; simpl.
    + now rewrite <- app_assoc.
    + intros s' Hs'. apply H. right. exact Hs'.
Qed.

Lemma run_no_flush segs st :
  truthy (current_chunk_text st) = true ->
  chunks (run segs st) = chunks st ->
  forall s, In s segs -> seg_end s - current_start_time st <= chunk_duration.
Proof.
  revert st. induction segs as [|s segs IH]; intros st Hb Hc s' Hs'; [destruct Hs'|].
  simpl fold_left in Hc.
  destruct (run_chunks_extend vid chunk_duration segs (loop_body vid chunk_duration st s))
    as [more Hmore].
  destruct (Qgtb (seg_end s - current_start_time st) chunk_duration) eqn:Egt.
  - assert (E : chunks (loop_body vid chunk_duration st s)
                = chunks st ++ [mkChunk vid (current_start_time st) (seg_start s)
                                        (join " " (current_chunk_text st)) None])
      by (unfold loop_body; rewrite Egt, Hb; reflexivity).
    rewrite Hmore, E in Hc.
    apply (f_equal (@length _)) in Hc. rewrite !length_app in Hc. simpl in Hc. lia.
  - assert (E : loop_body vid chunk_duration st s
                = mkLocals (chunks st)
                           (current_chunk_text st ++ [strip (seg_text s)])
                           (current_start_time st))
      by (unfold loop_body; rewrite Egt; reflexivity).
    destruct Hs' as [<- | Hs'].
    + apply Qgtb_false. exact Egt.
    + assert (Hcs : current_start_time (loop_body vid chunk_duration st s)
                    = current_start_time st) by (rewrite E; reflexivity).
      rewrite <- Hcs.
      apply (IH (loop_body vid chunk_duration st s)).
      * apply loop_body_buffer.
      * rewrite Hc. rewrite E. reflexivity.
      * exact Hs'.
Qed.

(** X3. A non-empty input makes a single chunk exactly when every segment
    behind the first ends within [chunk_duration] of the first segment's
    start; the chunk then runs from the first start to the last end and
    holds all the stripped texts. *)
Theorem chunk_transcript_single (s0 : Segment) (rest : list Segment) :
  chunk_transcript (s0 :: rest) vid chunk_duration
  = [mkChunk vid (seg_start s0) (last_end (s0 :: rest))
             (join " " (map (fun s => strip (seg_text s)) (s0 :: rest))) None]
  <-> (forall s, In s rest -> seg_end s - seg_start s0 <= chunk_duration).
Proof.
  rewrite chunk_transcript_nonempty.
  assert (Hfirst : run (s0 :: rest) (loop_init (s0 :: rest))
                   = run rest (mkLocals [] [strip (seg_text s0)] (seg_start s0))).
  { simpl fold_left. unfold loop_body at 2. simpl. rewrite andb_false_r. reflexivity. }
  rewrite Hfirst. split.
  - intros H.
    apply (run_no_flush rest (mkLocals [] [strip (seg_text s0)] (seg_start s0)));
      [reflexivity|].
    simpl chunks.
    destruct (chunks (run rest (mkLocals [] [strip (seg_text s0)] (seg_start s0))));
      [reflexivity|].
    apply (f_equal (@length _)) in H. simpl in H. rewrite length_app in H.
    simpl in H. lia.
  - intros H. rewrite run_fits by exact H. reflexivity.
Qed.

Lemma run_fields segs st :
  Forall (fun c => video_id c = vid /\ embedding c = None) (chunks st) ->
  Forall (fun c => video_id c = vid /\ embedding c = None) (chunks (run segs st)).
Proof.
  revert st. induction segs as [|s segs IH]; intros st H; simpl fold_left; [exact H|].
  apply IH. unfold loop_body. destruct (Qgtb _ _ && truthy _); simpl; [| exact H].
  apply Forall_app. split; [exact H|]. constructor; [split; reflexivity | constructor].
Qed.

(** X4. Every chunk of [chunk_transcript] carries the given video id and no
    embedding. *)
Theorem chunk_transcript_fields (segments : list Segment) :
  Forall (fun c => video_id c = vid /\ embedding c = None)
         (chunk_transcript segments vid chunk_duration).
Proof.
  unfold chunk_transcript, add_last_chunk.
  pose proof (run_fields segments (loop_init segments) (Forall_nil _)) as H.
  destruct (truthy _); [| exact H].
  apply Forall_app. split; [exact H|]. constructor; [split; reflexivity | constructor].
Qed.

(** X5. More segments at the end leave the chunks flushed so far as they
    are: all chunks but the last of the shorter input are the first chunks
    of the longer one. *)
Theorem chunk_transcript_extends (s0 : Segment) (segs more : list Segment) :
  exists tail,
    tail <> []
    /\ chunk_transcript (s0 :: segs ++ more) vid chunk_duration
       = removelast (chunk_transcript (s0 :: segs) vid chunk_duration) ++ tail.
Proof.
  assert (Hrun : run (s0 :: segs ++ more) (loop_init (s0 :: segs ++ more))
                 = run more (run (s0 :: segs) (loop_init (s0 :: segs)))).
  { change (s0 :: segs ++ more) with ((s0 :: segs) ++ more).
    rewrite fold_left_app. reflexivity. }
  rewrite (chunk_transcript_nonempty vid chunk_duration s0 (segs ++ more)).
  rewrite (chunk_transcript_nonempty vid chunk_duration s0 segs).
  rewrite removelast_last, Hrun.
  destruct (run_chunks_extend vid chunk_duration more
              (run (s0 :: segs) (loop_init (s0 :: segs)))) as [extra Hextra].
  rewrite Hextra, <- app_assoc.
  eexists. split; [| reflexivity].
  destruct extra; discriminate.
Qed.

End ChunkerMore.

(** * More on the similarity index *)

(** A method body, run: the monad's operations unfolded and reduced. *)
Ltac run_engine :=
  unfold E.bind, E.get, E.lift, E.ret, E.raise,
         E.set_chunks, E.set_index, E.set_dimension;
  simpl.

Section Loading.

Import TranscriptProcessor.
Import VideoSearchEngine.

(** The assignment through [zip] reaches every chunk: there is one
    embedding for each text. *)
Lemma embed_chunks_map (model : string -> ndarray) (cs : list TranscriptChunk) :
  embed_chunks model cs = map (fun c => set_embedding c (model (text c))) cs.
Proof.
  unfold embed_chunks, encode. cbv zeta.
  induction cs as [|c cs IH]; [reflexivity|]. simpl. now rewrite IH.
Qed.









(** X8. The chunks of [process_video] carry the given video id and the
    model's vector of their own text, and their texts joined by spaces are
    the stripped texts of the Whisper segments joined by spaces. *)
Theorem process_video_chunks
    (whisper : string -> list Segment) (model : string -> ndarray)
    (video_path vid : string) :
  Forall (fun c => video_id c = vid /\ embedding c = Some (model (text c)))
         (process_video whisper model video_path vid)
  /\ join " " (map text (process_video whisper model video_path vid))
     = join " " (map (fun s => strip (seg_text s)) (whisper video_path)).
Proof.
  unfold process_video. cbv zeta. rewrite embed_chunks_map. split.
  - apply Forall_forall. intros c Hc. apply in_map_iff in Hc.
    destruct Hc as [c0 [<- Hc0]]. simpl. split; [| reflexivity].
    unfold chunk_transcript, add_last_chunk in Hc0.
    pose proof (run_fields vid 30 (whisper video_path)
                  (loop_init (whisper video_path)) (Forall_nil _)) as H.
    rewrite Forall_forall in H.
    destruct (truthy _); [| apply H; exact Hc0].
    apply in_app_or in Hc0. destruct Hc0 as [Hc0 | [<- | []]];
      [apply H; exact Hc0 | reflexivity].
  - rewrite map_map. simpl. unfold chunk_transcript. apply run_text.
Qed.

End Loading.

(** * The order of equal scores *)

Section Ties.

Lemma scored_labelled ix q :
  faiss.scored ix q = labelled (map (faiss.inner_product q) (faiss.xb ix)).
Proof. unfold faiss.scored, labelled. now rewrite length_map. Qed.

Lemma insert_rank_sorted rank e l :
  StronglySorted (fun a b : Q * Z => (rank (snd a) <= rank (snd b))%Z) l ->
  StronglySorted (fun a b : Q * Z => (rank (snd a) <= rank (snd b))%Z)
                 (faiss.insert_rank rank e l).
Proof.
  induction l as [|e' l IH]; intros Hs; simpl.
  - constructor; constructor.
  - apply StronglySorted_inv in Hs. destruct Hs as [Hs Hall].
    destruct (rank (snd e) <? rank (snd e'))%Z eqn:Elt.
    + apply Z.ltb_lt in Elt. constructor.
      * constructor; assumption.
      * constructor; [lia|].
        eapply Forall_impl; [| exact Hall]. simpl. intros a Ha. lia.
    + apply Z.ltb_ge in Elt. constructor; [auto|].
      eapply Permutation_Forall;
        [apply Permutation_sym, insert_rank_perm|].
      constructor; assumption.
Qed.

Lemma arranged_sorted {ties : faiss.TieOrder} k (l : list (Q * Z)) :
  StronglySorted (fun a b : Q * Z =>
                    (faiss.tie_rank k (map fst l) (snd a)
                     <= faiss.tie_rank k (map fst l) (snd b))%Z)
                 (faiss.arranged k l).
Proof.
  unfold faiss.arranged. generalize (faiss.tie_rank k (map fst l)). intros rank.
  assert (H : forall acc,
             StronglySorted (fun a b : Q * Z => (rank (snd a) <= rank (snd b))%Z) acc ->
             StronglySorted (fun a b : Q * Z => (rank (snd a) <= rank (snd b))%Z)
               (fold_left (fun acc e => faiss.insert_rank rank e acc) l acc)).
  { induction l as [|e l IH]; intros acc Hacc; simpl; [exact Hacc|].
    apply IH. apply insert_rank_sorted. exact Hacc. }
  apply H. constructor.
Qed.

(** A list in strictly increasing order of a key is the only ordered
    rearrangement of its entries. *)
Lemma increasing_unique {A : Type} (key : A -> Z) (l1 l2 : list A) :
  Permutation l1 l2 ->
  StronglySorted (fun a b => (key a < key b)%Z) l1 ->
  StronglySorted (fun a b => (key a <= key b)%Z) l2 ->
  l1 = l2.
Proof.
  revert l2. induction l1 as [|a t1 IH]; intros l2 Hp H1 H2.
  - apply Permutation_nil in Hp. now subst.
  - destruct l2 as [|b t2].
    { apply Permutation_sym, Permutation_nil in Hp. discriminate. }
    apply StronglySorted_inv in H1. destruct H1 as [H1 Ha].
    apply StronglySorted_inv in H2. destruct H2 as [H2 Hb].
    assert (Hab : a = b).
    { assert (Hina : In a (b :: t2))
        by (eapply Permutation_in; [exact Hp | left; reflexivity]).
      assert (Hinb : In b (a :: t1))
        by (eapply Permutation_in; [apply Permutation_sym; exact Hp | left; reflexivity]).
      destruct Hina as [Hina | Hina]; [now symmetry|].
      destruct Hinb as [Hinb | Hinb]; [exact Hinb|].
      rewrite Forall_forall in Ha, Hb.
      specialize (Ha b Hinb). specialize (Hb a Hina). lia. }
    subst b. f_equal. apply IH; [| assumption | assumption].
    eapply Permutation_cons_inv. exact Hp.
Qed.

Lemma place_nonneg i labels : (0 <= place i labels)%Z.
Proof.
  induction labels as [|j rest IH]; cbn [place]; [lia|].
  destruct (i =? j)%Z; lia.
Qed.

(** Labels that are all different stand in increasing order of their
    places. *)
Lemma place_increasing (pre labels : list Z) :
  NoDup (pre ++ labels) ->
  StronglySorted (fun a b => (place a (pre ++ labels) < place b (pre ++ labels))%Z)
                 labels.
Proof.
  revert pre. induction labels as [|j rest IH]; intros pre Hnd; [constructor|].
  constructor.
  - replace (pre ++ j :: rest) with ((pre ++ [j]) ++ rest)
      by (now rewrite <- app_assoc).
    apply IH. now rewrite <- app_assoc.
  - apply Forall_forall. intros x Hx.
    assert (Hshift : forall y front tail,
               ~ In y front ->
               place y (front ++ tail)
               = (Z.of_nat (List.length front) + place y tail)%Z).
    { intros y front tail. induction front as [|f front IHf]; intros Hy.
      - reflexivity.
      - change ((f :: front) ++ tail) with (f :: front ++ tail). cbn [place].
        assert (E : (y =? f)%Z = false).
        { apply Z.eqb_neq. intros ->. apply Hy. left. reflexivity. }
        rewrite E, IHf by (intros H; apply Hy; right; exact H).
        change (List.length (f :: front)) with (S (List.length front)).
        rewrite Nat2Z.inj_succ. lia. }
    assert (Hj : ~ In j pre).
    { intros H. apply NoDup_remove_2 in Hnd. apply Hnd.
      apply in_or_app. left. exact H. }
    assert (Hxpre : ~ In x pre).
    { intros H. clear Hshift Hj IH. induction pre as [|f pre IHp]; [destruct H|].
      simpl in Hnd. inversion Hnd as [|? ? Hnot Hrest]; subst.
      destruct H as [-> | H].
      - apply Hnot. apply in_or_app. right. right. exact Hx.
      - apply IHp; assumption. }
    assert (Hxj : x <> j).
    { intros ->. apply NoDup_remove_2 in Hnd. apply Hnd.
      apply in_or_app. right. exact Hx. }
    rewrite (Hshift j pre _ Hj), (Hshift x pre _ Hxpre). cbn [place].
    rewrite Z.eqb_refl.
    apply Z.eqb_neq in Hxj. rewrite Hxj.
    pose proof (place_nonneg x rest). lia.
Qed.

Lemma sorted_on_labels (R : Z -> Z -> Prop) (l : list (Q * Z)) :
  StronglySorted R (map snd l) ->
  StronglySorted (fun a b => R (snd a) (snd b)) l.
Proof.
  induction l as [|e l IH]; intros H; [constructor|].
  simpl in H. apply StronglySorted_inv in H. destruct H as [H He].
  constructor; [apply IH; exact H|].
  rewrite Forall_forall in He. apply Forall_forall. intros b Hb.
  apply He. apply in_map. exact Hb.
Qed.

(** A list in non-increasing order of score is ranked already. *)
Lemma insert_desc_last {A : Type} (e : Q * A) (l : list (Q * A)) :
  Forall (fun a => fst e <= fst a) l -> faiss.insert_desc e l = l ++ [e].
Proof.
  induction 1 as [|a l Ha _ IH]; [reflexivity|].
  simpl. apply Qgtb_false in Ha. now rewrite Ha, IH.
Qed.

Lemma ranked_descending_id {A : Type} (l : list (Q * A)) :
  descending l -> faiss.ranked l = l.
Proof.
  intros Hl. unfold faiss.ranked.
  assert (H : forall acc,
             descending (acc ++ l) ->
             fold_left (fun acc e => faiss.insert_desc e acc) l acc = acc ++ l).
  { clear Hl. induction l as [|e l IH]; intros acc Hacc; simpl.
    - now rewrite app_nil_r.
    - assert (Hlast : faiss.insert_desc e acc = acc ++ [e]).
      { apply insert_desc_last. clear IH.
        induction acc as [|a acc IHa]; [constructor|].
        simpl in Hacc. apply StronglySorted_inv in Hacc.
        destruct Hacc as [Hacc Ha]. constructor; [| apply IHa; exact Hacc].
        rewrite Forall_forall in Ha. apply Ha.
        apply in_or_app. right. left. reflexivity. }
      rewrite Hlast, IH, <- app_assoc; [reflexivity|].
      now rewrite <- app_assoc. }
  apply (H []). exact Hl.
Qed.

Lemma labelled_labels scores : NoDup (map snd (labelled scores)).
Proof.
  unfold labelled.
  assert (E : map snd (combine scores (map Z.of_nat (seq 0 (length scores))))
              = map Z.of_nat (seq 0 (length scores))).
  { generalize 0%nat. induction scores as [|x scores IH]; intros n; [reflexivity|].
    simpl. now rewrite IH. }
  rewrite E. apply NoDup_map_NoDup_ForallPairs; [| apply seq_NoDup].
  intros x y _ _ H. now apply Nat2Z.inj.
Qed.

Lemma labelled_scores scores : map fst (labelled scores) = scores.
Proof.
  unfold labelled. generalize 0%nat.
  induction scores as [|x scores IH]; intros n; [reflexivity|].
  simpl. now rewrite IH.
Qed.

(** The two tie orders at the three one-hot vectors and the query
    [[0; 1; 0]]: the positions 0 and 2 have the same score. *)
Example tie_orders_differ :
  @faiss.search faiss.earlier_first
     (faiss.mkIndex 3 [[1; 0; 0]; [0; 1; 0]; [0; 0; 1]]) [0; 1; 0] 3
  = Ok ([1; 0; 0], [1; 0; 2]%Z)
  /\ @faiss.search faiss.later_first
        (faiss.mkIndex 3 [[1; 0; 0]; [0; 1; 0]; [0; 0; 1]]) [0; 1; 0] 3
     = Ok ([1; 0; 0], [1; 2; 0]%Z).
Proof. split; reflexivity. Qed.

(** The tie order leaves the library free.  Whatever a search returns
    before the cut -- for every [k] and all scores a rearrangement of the
    scored positions in non-increasing order of score -- there is a tie order
    under which the model ranks in just that way. *)
Lemma tie_order_complete (returned : Z -> list Q -> list (Q * Z)) :
  (forall k scores,
      Permutation (returned k scores) (labelled scores)
      /\ descending (returned k scores)) ->
  exists ties : faiss.TieOrder,
    forall k scores,
      faiss.ranked (faiss.arranged k (labelled scores)) = returned k scores.
Proof.
  intros Hret.
  pose (ties := (fun k scores i => place i (map snd (returned k scores)))
                : faiss.TieOrder).
  exists ties.
  intros k scores. destruct (Hret k scores) as [Hperm Hdesc].
  assert (E : faiss.arranged k (labelled scores) = returned k scores).
  { symmetry. apply (increasing_unique
                       (fun e => place (snd e) (map snd (returned k scores)))).
    - eapply Permutation_trans; [exact Hperm|].
      apply Permutation_sym, arranged_perm.
    - apply (sorted_on_labels
               (fun a b => (place a (map snd (returned k scores))
                            < place b (map snd (returned k scores)))%Z)).
      apply (place_increasing []). simpl.
      eapply Permutation_NoDup; [| apply (labelled_labels scores)].
      apply Permutation_map, Permutation_sym. exact Hperm.
    - pose proof (arranged_sorted k (labelled scores)) as Hs.
      unfold faiss.tie_rank, ties in Hs. rewrite labelled_scores in Hs. exact Hs. }
  rewrite E. apply ranked_descending_id. exact Hdesc.
Qed.

End Ties.

Section Searching.

Import VideoSearchEngine.

Context {ties : faiss.TieOrder}.

Lemma search_keeps_engine (self : t) (query : string) (k : Z) :
  fst (search query k self) = self.
Proof.
  unfold search. run_engine.
  destruct (negb (truthy (chunks self)) || is_None (index self)); [reflexivity|].
  destruct (index self) as [ix|]; [| reflexivity].
  destruct (faiss.search ix _ k); [apply collect_state | reflexivity].
Qed.

(** [search] for at most as many results as there are chunks, on a
    well-formed engine: the [top_k] best chunks. *)
Lemma search_top (self : t) (query : string) (k : Z) (dim : nat) :
  well_formed self ->
  dimension self = Some dim ->
  length (embedding_model self query) = dim ->
  (0 < k <= Z.of_nat (length (chunks self)))%Z ->
  snd (search query k self)
  = Ok (firstn (Z.to_nat k)
          (map record_of
               (corpus_ranking k (embedding_model self query) (chunks self)))).
Proof.
  intros [Hstep [ix [Hix [Hdim Hwidth]]]] Hd Hq Hk.
  unfold in_step, vectors in Hstep. rewrite Hix in Hstep.
  apply in_step_vectors in Hstep. destruct Hstep as [Hxb _].
  assert (Hd' : faiss.d ix = dim) by congruence.
  assert (Hne : truthy (chunks self) = true).
  { destruct (chunks self); [simpl in Hk; lia | reflexivity]. }
  unfold search. run_engine. rewrite Hne, Hix. simpl.
  rewrite faiss_search_enough;
    [| congruence | now rewrite Hxb, length_map].
  simpl. rewrite combine_fst_snd.
  rewrite collect_records by (apply ranked_labels; exact Hxb).
  simpl. now rewrite ranked_records by exact Hxb.
Qed.

(** X9. On a well-formed engine, [search] for [top_k] results, with
    [top_k] at least 1 and at most the number of chunks and a query vector of
    the engine's width, leaves the engine as it is and returns the first
    [top_k] records of a ranking of the whole corpus: a rearrangement of all
    chunks, each with the inner product of the query vector and its own
    vector, in non-increasing order of that score. *)
Theorem search_ranks_corpus (self : t) (query : string) (k : Z) (dim : nat) :
  well_formed self ->
  dimension self = Some dim ->
  length (embedding_model self query) = dim ->
  (0 < k <= Z.of_nat (length (chunks self)))%Z ->
  exists ranking,
    Permutation ranking
                (map (chunk_score (embedding_model self query)) (chunks self))
    /\ descending ranking
    /\ search query k self
       = (self, Ok (map record_of (firstn (Z.to_nat k) ranking))).
Proof.
  intros Hwf Hd Hq Hk.
  exists (corpus_ranking k (embedding_model self query) (chunks self)).
  split; [apply ranking_perm|]. split; [apply ranking_descending|].
  rewrite (surjective_pairing (search query k self)), search_keeps_engine.
  rewrite (search_top self query k dim) by assumption.
  now rewrite firstn_map.
Qed.

End Searching.

Section Reachable.

Import VideoSearchEngine.

Context {ties : faiss.TieOrder}.




Lemma initialised_chunks batch (self : t) :
  chunks (initialised batch self) = chunks self ++ batch.
Proof.
  unfold initialised, extended.
  destruct (index self); [reflexivity|].
  destruct (filter has_embedding batch); reflexivity.
Qed.



Lemma getitem_in_range {A : Type} (cs : list A) (i : Z) :
  (- Z.of_nat (length cs) <= i < Z.of_nat (length cs))%Z ->
  exists x, getitem cs i = Ok x.
Proof.
  intros [Hlo Hhi]. unfold getitem.
  set (n := Z.of_nat (length cs)) in *.
  set (j := (if (i <? 0)%Z then n + i else i)%Z).
  assert (Hj : (0 <= j < n)%Z).
  { unfold j. destruct (i <? 0)%Z eqn:E; [apply Z.ltb_lt in E | apply Z.ltb_ge in E]; lia. }
  assert (Hin : ((0 <=? j) && (j <? n))%Z = true).
  { apply andb_true_iff. split; [apply Z.leb_le | apply Z.ltb_lt]; lia. }
  rewrite Hin.
  destruct (nth_error cs (Z.to_nat j)) eqn:E; [eexists; reflexivity|].
  apply nth_error_None in E. unfold n in Hj. lia.
Qed.

Lemma collect_in_range cs hits acc (self : t) :
  Forall (fun h => (- Z.of_nat (length cs) <= snd h < Z.of_nat (length cs))%Z) hits ->
  exists rs, snd (collect cs hits acc self) = Ok rs.
Proof.
  intros H. revert acc. induction H as [|[score idx] hits Hh _ IH]; intros acc; simpl.
  - eexists. reflexivity.
  - run_engine. destruct (getitem_in_range cs idx Hh) as [x ->]. apply IH.
Qed.

Lemma top_labels k l (n : Z) :
  (0 <= n)%Z ->
  Forall (fun h : Q * Z => (0 <= snd h < n)%Z) l ->
  Forall (fun h : Q * Z => (-1 <= snd h < n)%Z) (faiss.top k l).
Proof.
  intros Hn H. unfold faiss.top. apply Forall_app. split.
  - apply Forall_firstn. eapply Forall_impl; [| exact H]. simpl. intros h Hh. lia.
  - apply Forall_forall. intros h Hh. apply repeat_spec in Hh. subst h. simpl. lia.
Qed.


(** X11. Once [self.dimension] is set no later [add_chunks] changes it, nor
    the width of the index, whatever the batch and whether or not the call
    raises. *)
Theorem dimension_never_changes
    (model : string -> ndarray) (self : t) (dim : nat)
    (batch : list TranscriptChunk) :
  reachable model self ->
  dimension self = Some dim ->
  dimension (fst (add_chunks batch self)) = Some dim
  /\ exists ix, index (fst (add_chunks batch self)) = Some ix /\ faiss.d ix = dim.
Proof.
  intros Hreach Hdim.
  pose proof (reachable_dimension_fixed model self Hreach) as Hfix.
  pose proof (add_chunks_dimension_fixed batch self Hfix) as Hfix'.
  assert (Hd : dimension (fst (add_chunks batch self)) = Some dim).
  { unfold dimension_fixed in Hfix. rewrite Hdim in Hfix.
    destruct (index self) as [ix|] eqn:Eix; [| contradiction].
    rewrite add_chunks_steps.
    assert (Hinit : initialised batch self = extended batch self)
      by (unfold initialised; now rewrite Eix).
    rewrite Hinit.
    destruct (filter has_embedding batch); [exact Hdim|].
    destruct (np_array _); [| exact Hdim].
    destruct (index (extended batch self)); [| exact Hdim].
    destruct (faiss.add _ _); exact Hdim. }
  split; [exact Hd|].
  unfold dimension_fixed in Hfix'. rewrite Hd in Hfix'.
  destruct (index (fst (add_chunks batch self))) as [ix|]; [| contradiction].
  exists ix. split; [reflexivity | exact Hfix'].
Qed.

(** X12. A batch without embedded chunks, the empty batch included, is
    appended to [self.chunks] and nothing else happens: no exception, the
    index and the dimension stay as they are. *)
Theorem add_chunks_unembedded (self : t) (batch : list TranscriptChunk) :
  Forall (fun c => embedding c = None) batch ->
  add_chunks batch self
  = (mkEngine (embedding_model self) (chunks self ++ batch)
              (index self) (dimension self),
     Ok tt).
Proof.
  intros H. rewrite add_chunks_steps.
  assert (Hf : filter has_embedding batch = []).
  { induction H as [|c cs Hc _ IH]; [reflexivity|].
    simpl. unfold has_embedding at 1. rewrite Hc. simpl. exact IH. }
  rewrite Hf. unfold initialised, extended. rewrite Hf.
  destruct (index self); reflexivity.
Qed.

End Reachable.

Section Videos.

Import VideoSearchEngine.

Lemma video_chunks_of_In vid cs c :
  In c (video_chunks_of vid cs) <-> In c cs /\ video_id c = vid.
Proof.
  unfold video_chunks_of. rewrite filter_In, String.eqb_eq. reflexivity.
Qed.

Lemma video_chunks_of_nonempty vid cs :
  video_chunks_of vid cs <> [] <-> exists c, In c cs /\ video_id c = vid.
Proof.
  split.
  - destruct (video_chunks_of vid cs) as [|c l] eqn:E; [congruence|].
    intros _. exists c. apply video_chunks_of_In. rewrite E. left. reflexivity.
  - intros [c Hc] E. apply video_chunks_of_In in Hc. rewrite E in Hc. destruct Hc.
Qed.

(** The summary of a video, spelled out. *)
Lemma get_video_summary_cases (self : t) (vid : string) :
  get_video_summary vid self
  = match map end_time (video_chunks_of vid (chunks self)) with
    | [] => (self, Ok None)
    | e :: es =>
        (self, Ok (Some (mkSummary vid (py_max e es)
                                   (length (video_chunks_of vid (chunks self)))
                                   (_format_timestamp (py_max e es)))))
    end.
Proof.
  unfold get_video_summary. run_engine.
  destruct (video_chunks_of vid (chunks self)); reflexivity.
Qed.

(** X13. [get_all_videos] lists every video id of the corpus once, and a
    video is listed exactly when [get_video_summary] has a summary for it;
    that summary counts at least one chunk.  So the summaries that the
    [list] command reads for the listed ids are never the empty dict. *)
Theorem listed_videos_have_summaries (self : t) :
  exists ids,
    get_all_videos self = (self, Ok ids)
    /\ NoDup ids
    /\ (forall v, In v ids <-> exists c, In c (chunks self) /\ video_id c = v)
    /\ (forall v, In v ids <->
                  exists s, get_video_summary v self = (self, Ok (Some s))
                            /\ s_video_id s = v
                            /\ (1 <= chunk_count s)%nat).
Proof.
  exists (nodup string_dec (map video_id (chunks self))).
  split; [reflexivity|]. split; [apply NoDup_nodup|].
  assert (Hin : forall v, In v (nodup string_dec (map video_id (chunks self)))
                          <-> exists c, In c (chunks self) /\ video_id c = v).
  { intros v. rewrite nodup_In, in_map_iff. split; intros [c [H1 H2]]; eauto. }
  split; [exact Hin|].
  intros v. rewrite Hin, <- video_chunks_of_nonempty, get_video_summary_cases.
  destruct (video_chunks_of v (chunks self)) as [|c l]; simpl.
  - split; [congruence | intros [s [H _]]; discriminate].
  - split; [| discriminate]. intros _. eexists. split; [reflexivity|].
    simpl. split; [reflexivity | lia].
Qed.

Lemma count_of_length (self : t) (vid : string) :
  count_of self vid = length (video_chunks_of vid (chunks self)).
Proof.
  unfold count_of. rewrite get_video_summary_cases.
  destruct (video_chunks_of vid (chunks self)); reflexivity.
Qed.

Lemma indicator_sum (a : string) (ids : list string) :
  NoDup ids ->
  list_sum (map (fun v => if String.eqb a v then 1%nat else 0%nat) ids)
  = if in_dec string_dec a ids then 1%nat else 0%nat.
Proof.
  induction 1 as [|v ids Hv _ IH]; [reflexivity|].
  simpl map. simpl list_sum. rewrite IH.
  destruct (String.eqb a v) eqn:E.
  - apply String.eqb_eq in E. subst v.
    destruct (in_dec string_dec a ids); [contradiction|].
    destruct (in_dec string_dec a (a :: ids)) as [_|Hn]; [reflexivity|].
    exfalso. apply Hn. left. reflexivity.
  - apply String.eqb_neq in E.
    destruct (in_dec string_dec a ids) as [Hi|Hn];
      destruct (in_dec string_dec a (v :: ids)) as [Hi'|Hn']; try reflexivity.
    + exfalso. apply Hn'. right. exact Hi.
    + destruct Hi' as [Hi'|Hi']; [congruence | contradiction].
Qed.

Lemma count_sum (cs : list TranscriptChunk) (ids : list string) :
  NoDup ids ->
  (forall c, In c cs -> In (video_id c) ids) ->
  list_sum (map (fun v => length (video_chunks_of v cs)) ids) = length cs.
Proof.
  intros Hnd. induction cs as [|c cs IH]; intros Hall.
  - clear Hnd Hall. induction ids as [|v l IHl]; [reflexivity | exact IHl].
  - assert (Hsplit : forall l : list string,
               list_sum (map (fun v => length (video_chunks_of v (c :: cs))) l)
               = (list_sum (map (fun v => if String.eqb (video_id c) v
                                          then 1%nat else 0%nat) l)
                  + list_sum (map (fun v => length (video_chunks_of v cs)) l))%nat).
    { induction l as [|v l IHl]; [reflexivity|].
      change (length (video_chunks_of v (c :: cs))
              + list_sum (map (fun v => length (video_chunks_of v (c :: cs))) l)
              = (if String.eqb (video_id c) v then 1 else 0)
                + list_sum (map (fun v => if String.eqb (video_id c) v
                                          then 1 else 0) l)
                + (length (video_chunks_of v cs)
                   + list_sum (map (fun v => length (video_chunks_of v cs)) l)))%nat.
      rewrite IHl.
      assert (Hc : length (video_chunks_of v (c :: cs))
                   = ((if String.eqb (video_id c) v then 1 else 0)
                      + length (video_chunks_of v cs))%nat).
      { unfold video_chunks_of. simpl filter.
        destruct (String.eqb (video_id c) v); reflexivity. }
      lia. }
    rewrite Hsplit, indicator_sum by exact Hnd.
    rewrite IH by (intros c' Hc'; apply Hall; right; exact Hc').
    destruct (in_dec string_dec (video_id c) ids) as [_|Hn]; [reflexivity|].
    exfalso. apply Hn. apply Hall. left. reflexivity.
Qed.

(** X14. The chunk counts of the summaries of the listed videos add up to
    the number of chunks in the corpus. *)
Theorem chunk_counts_add_up (self : t) (ids : list string) :
  snd (get_all_videos self) = Ok ids ->
  list_sum (map (count_of self) ids) = length (chunks self).
Proof.
  intros H. injection H as <-.
  rewrite (map_ext _ (fun v => length (video_chunks_of v (chunks self))))
    by (intros v; apply count_of_length).
  apply count_sum; [apply NoDup_nodup|].
  intros c Hc. apply nodup_In. apply in_map. exact Hc.
Qed.

(** X15. After [add_chunks], whether it returned or raised,
    [get_all_videos] lists the ids listed before and the ids of the batch;
    the number of listed videos does not go down, and it stays the same when
    every chunk of the batch belongs to a video listed before. *)
Theorem add_chunks_videos
    (self : t) (batch : list TranscriptChunk) (ids ids' : list string) :
  snd (get_all_videos self) = Ok ids ->
  snd (get_all_videos (fst (add_chunks batch self))) = Ok ids' ->
  (forall v, In v ids' <-> In v ids \/ exists c, In c batch /\ video_id c = v)
  /\ (length ids <= length ids')%nat
  /\ ((forall c, In c batch -> In (video_id c) ids) -> length ids' = length ids).
Proof.
  intros H H'. injection H as <-. injection H' as <-.
  rewrite add_chunks_chunks.
  assert (Hin : forall v,
             In v (nodup string_dec (map video_id (chunks self ++ batch)))
             <-> In v (nodup string_dec (map video_id (chunks self)))
                 \/ exists c, In c batch /\ video_id c = v).
  { intros v. rewrite !nodup_In, map_app, in_app_iff, (in_map_iff video_id batch).
    split; (intros [Hl | [c [H1 H2]]]; [left; exact Hl | right; eauto]). }
  split; [exact Hin|]. split.
  - apply NoDup_incl_length; [apply NoDup_nodup|].
    intros v Hv. apply Hin. left. exact Hv.
  - intros Hknown. apply Nat.le_antisymm.
    + apply NoDup_incl_length; [apply NoDup_nodup|].
      intros v Hv. apply Hin in Hv. destruct Hv as [Hv | [c [Hc <-]]];
        [exact Hv | apply Hknown; exact Hc].
    + apply NoDup_incl_length; [apply NoDup_nodup|].
      intros v Hv. apply Hin. left. exact Hv.
Qed.

End Videos.

Section Timestamps.

Import VideoSearchEngine.

Lemma Qfloor_unique (x : Q) (n : Z) :
  inject_Z n <= x -> x < inject_Z (n + 1) -> Qround.Qfloor x = n.
Proof.
  intros Hlo Hhi.
  pose proof (Qround.Qfloor_le x) as Hfl.
  pose proof (Qround.Qlt_floor x) as Hfu.
  assert (H1 : (n < Qround.Qfloor x + 1)%Z).
  { rewrite Zlt_Qlt. eapply Qle_lt_trans; eassumption. }
  assert (H2 : (Qround.Qfloor x < n + 1)%Z).
  { rewrite Zlt_Qlt. eapply Qle_lt_trans; eassumption. }
  lia.
Qed.

Lemma slength_append (a b : string) :
  String.length (a ++ b) = (String.length a + String.length b)%nat.
Proof. induction a as [|c a IH]; simpl; [reflexivity | now rewrite IH]. Qed.

(** Numbers from 0 to 99 print as two characters. *)
Lemma format_02d_two_digits (n : Z) :
  (0 <= n < 100)%Z -> String.length (format_02d n) = 2%nat.
Proof.
  intros Hn.
  assert (Hall : forallb (fun i => (String.length (format_02d (Z.of_nat i)) =? 2)%nat)
                         (seq 0 100) = true) by (vm_compute; reflexivity).
  rewrite forallb_forall in Hall.
  specialize (Hall (Z.to_nat n)). rewrite Z2Nat.id in Hall by lia.
  apply Nat.eqb_eq, Hall, in_seq. lia.
Qed.

(** An integer below [2 ^ 53] is a binary64 number. *)
Lemma Qred_integer (x : Q) (z : Z) : x == inject_Z z -> Qred x = inject_Z z.
Proof.
  intros H. rewrite (Qred_complete _ _ H).
  apply Qcanon.Qred_identity. simpl. apply Z.gcd_1_r.
Qed.

Lemma round_half_even_integer (x : Q) (z : Z) :
  x == inject_Z z -> round_half_even x = z.
Proof.
  intros H. unfold round_half_even.
  assert (Hf : Qround.Qfloor x = z) by (rewrite H; apply Qround.Qfloor_Z).
  rewrite Hf.
  assert (Hc : Qcompare (x - inject_Z z) (1 # 2) = Lt).
  { apply Qlt_alt. rewrite H.
    setoid_replace (inject_Z z - inject_Z z) with 0 by ring. reflexivity. }
  now rewrite Hc.
Qed.

Lemma binade_integer (z : Z) : z <> 0%Z -> binade (inject_Z z) = Z.log2 (Z.abs z).
Proof.
  intros Hz. unfold binade. simpl Qnum. simpl Qden.
  change (Z.log2 1) with 0%Z. rewrite Z.sub_0_r.
  pose proof (Z.log2_nonneg (Z.abs z)) as H0.
  assert (E : (0 <=? Z.log2 (Z.abs z))%Z = true) by (apply Z.leb_le; exact H0).
  rewrite E.
  assert (E' : (Z.abs z <? 1 * 2 ^ Z.log2 (Z.abs z))%Z = false).
  { apply Z.ltb_ge. rewrite Z.mul_1_l. apply Z.log2_spec. lia. }
  now rewrite E'.
Qed.

Lemma float64_integer (x : Q) (z : Z) :
  x == inject_Z z -> (Z.abs z < 2 ^ 53)%Z -> float64 x == inject_Z z.
Proof.
  intros H Hz. unfold float64. rewrite (Qred_integer x z H).
  destruct (Qeq_bool (inject_Z z) 0) eqn:E0.
  { apply Qeq_bool_eq in E0. now rewrite E0. }
  assert (Hz0 : z <> 0%Z).
  { intros ->. discriminate E0. }
  rewrite binade_integer by exact Hz0.
  assert (He : (Z.log2 (Z.abs z) - 52 <= 0)%Z).
  { assert (Z.log2 (Z.abs z) < 53)%Z; [| lia].
    apply Z.log2_lt_pow2; lia. }
  set (e := (Z.log2 (Z.abs z) - 52)%Z) in *.
  destruct (0 <=? e)%Z eqn:Ee.
  - apply Z.leb_le in Ee. assert (e = 0%Z) as -> by lia.
    change (2 ^ 0)%Z with 1%Z.
    rewrite (round_half_even_integer _ z).
    + now rewrite Z.mul_1_r.
    + change (inject_Z 1) with 1. field.
  - assert (Hp : (0 < 2 ^ (- e))%Z) by (apply Z.pow_pos_nonneg; lia).
    set (p := (2 ^ (- e))%Z) in *.
    rewrite (round_half_even_integer _ (z * p)).
    + rewrite inject_Z_mult. field.
      intros E. apply (inject_Z_injective p 0) in E. lia.
    + now rewrite inject_Z_mult.
Qed.

Lemma float64_zero (x : Q) : x == 0 -> float64 x = 0.
Proof.
  intros H. unfold float64. rewrite (Qred_integer x 0 H). reflexivity.
Qed.

Lemma py_int_floor (x : Q) : 0 <= x -> py_int x = Qround.Qfloor x.
Proof.
  intros H. unfold py_int, Qround.Qfloor. destruct x as [a b]. simpl.
  apply Z.quot_div_nonneg; [| reflexivity].
  unfold Qle in H. simpl in H. lia.
Qed.

(** On times from 0 up to [2 ^ 53] seconds the two operations lose nothing
    to rounding: they are the floor of the quotient and the exact
    remainder. *)
Lemma float_rem_exact (seconds : Q) :
  0 <= seconds ->
  float_rem seconds 60 == seconds - 60 * inject_Z (Qround.Qfloor (seconds / 60))
  /\ 0 <= float_rem seconds 60.
Proof.
  intros H0.
  assert (Hq : 0 <= seconds / 60).
  { apply Qle_shift_div_l; [reflexivity | lra]. }
  assert (Hm1 : inject_Z (Qround.Qfloor (seconds / 60)) <= seconds / 60)
    by apply Qround.Qfloor_le.
  assert (Hs : seconds == 60 * (seconds / 60)) by (field; discriminate).
  unfold float_rem, fmod. rewrite (py_int_floor _ Hq).
  set (n := Qround.Qfloor (seconds / 60)) in *.
  set (y := seconds / 60) in *.
  destruct (Qeq_bool (seconds - 60 * inject_Z n) 0) eqn:E0.
  - apply Qeq_bool_eq in E0. split; [now rewrite E0 | apply Qle_refl].
  - assert (Hge : 0 <= seconds - 60 * inject_Z n) by lra.
    assert (E1 : Qgtb 0 (seconds - 60 * inject_Z n) = false)
      by (apply Qgtb_false; exact Hge).
    rewrite E1. change (Qgtb 0 60) with false. simpl xorb.
    split; [reflexivity | exact Hge].
Qed.

Lemma float_floor_div_exact (seconds : Q) :
  0 <= seconds ->
  seconds < inject_Z (2 ^ 53) ->
  float_floor_div seconds 60 == inject_Z (Qround.Qfloor (seconds / 60)).
Proof.
  intros H0 Hmax.
  assert (Hq : 0 <= seconds / 60).
  { apply Qle_shift_div_l; [reflexivity | lra]. }
  assert (Hm1 : inject_Z (Qround.Qfloor (seconds / 60)) <= seconds / 60)
    by apply Qround.Qfloor_le.
  assert (Hs : seconds == 60 * (seconds / 60)) by (field; discriminate).
  assert (Hn0 : (0 <= Qround.Qfloor (seconds / 60))%Z).
  { rewrite <- (Qround.Qfloor_Z 0). apply Qround.Qfloor_resp_le. exact Hq. }
  unfold float_floor_div, fmod. rewrite (py_int_floor _ Hq).
  set (n := Qround.Qfloor (seconds / 60)) in *.
  set (y := seconds / 60) in *.
  set (m := seconds - 60 * inject_Z n).
  assert (Hge : 0 <= m) by (unfold m; lra).
  assert (Hbound : (60 * n < 2 ^ 53)%Z).
  { rewrite Zlt_Qlt. eapply Qle_lt_trans; [| exact Hmax].
    rewrite inject_Z_mult. change (inject_Z 60) with 60. lra. }
  assert (E1 : Qgtb 0 m = false) by (apply Qgtb_false; exact Hge).
  rewrite E1. change (Qgtb 0 60) with false. simpl xorb. rewrite andb_false_r.
  assert (Hdiv : float64 (float64 (seconds - m) / 60) == inject_Z n).
  { apply float64_integer; [| lia].
    rewrite (float64_integer (seconds - m) (60 * n)); [| | lia].
    - rewrite inject_Z_mult. change (inject_Z 60) with 60. field.
    - unfold m. rewrite inject_Z_mult. change (inject_Z 60) with 60. ring. }
  set (div := float64 (float64 (seconds - m) / 60)) in *.
  destruct (Qeq_bool div 0) eqn:E0.
  - apply Qeq_bool_eq in E0. now rewrite <- Hdiv, E0.
  - assert (Hfl : Qround.Qfloor div = n) by (rewrite Hdiv; apply Qround.Qfloor_Z).
    rewrite Hfl.
    rewrite (float64_zero (div - inject_Z n)) by (rewrite Hdiv; ring).
    change (Qgtb 0 (1 # 2)) with false. reflexivity.
Qed.

(** X16. For a time from 0 up to [2 ^ 53] seconds, [_format_timestamp]
    splits the whole seconds into minutes and seconds: the two numbers it
    prints, with a colon between them, are [minutes] and [secs] with
    [0 <= secs < 60] and [60 * minutes + secs = floor(seconds)]; the minutes
    are not reduced modulo 60.  The seconds take two characters, and below
    6000 seconds the timestamp has the five characters of [MM:SS]. *)
Theorem format_timestamp_fields (seconds : Q) :
  0 <= seconds ->
  seconds < inject_Z (2 ^ 53) ->
  exists minutes secs : Z,
    _format_timestamp seconds
    = (format_02d minutes ++ ":" ++ format_02d secs)%string
    /\ (0 <= secs < 60)%Z
    /\ (60 * minutes + secs = Qround.Qfloor seconds)%Z
    /\ String.length (format_02d secs) = 2%nat
    /\ (seconds < 6000 ->
        String.length (_format_timestamp seconds) = 5%nat).
Proof.
  intros H0 Hmax.
  destruct (float_rem_exact seconds H0) as [Hrem Hrem0].
  pose proof (float_floor_div_exact seconds H0 Hmax) as Hdiv.
  set (m := Qround.Qfloor (seconds / 60)) in *.
  set (f := Qround.Qfloor seconds).
  assert (Hm1 : inject_Z m <= seconds / 60) by apply Qround.Qfloor_le.
  assert (Hm2 : seconds / 60 < inject_Z (m + 1)) by apply Qround.Qlt_floor.
  assert (Hf1 : inject_Z f <= seconds) by apply Qround.Qfloor_le.
  assert (Hf2 : seconds < inject_Z (f + 1)) by apply Qround.Qlt_floor.
  rewrite inject_Z_plus in Hm2, Hf2.
  change (inject_Z 1) with 1 in Hm2, Hf2.
  assert (Hs : seconds == 60 * (seconds / 60)) by (field; discriminate).
  set (y := seconds / 60) in *.
  assert (Hlo : inject_Z (60 * m) <= seconds).
  { rewrite inject_Z_mult. change (inject_Z 60) with 60. lra. }
  assert (Hhi : seconds < inject_Z (60 * m + 60)).
  { rewrite inject_Z_plus, inject_Z_mult. change (inject_Z 60) with 60. lra. }
  assert (Hm0 : (0 <= m)%Z).
  { unfold m. rewrite <- (Qround.Qfloor_Z 0). apply Qround.Qfloor_resp_le.
    change (inject_Z 0) with 0. lra. }
  assert (Hminutes : py_int (float_floor_div seconds 60) = m).
  { rewrite py_int_floor
      by (rewrite Hdiv; change 0 with (inject_Z 0); rewrite <- Zle_Qle; exact Hm0).
    rewrite Hdiv. apply Qround.Qfloor_Z. }
  assert (Hsecs : py_int (float_rem seconds 60) = (f - 60 * m)%Z).
  { rewrite py_int_floor by exact Hrem0. rewrite Hrem.
    apply Qfloor_unique.
    - unfold Z.sub. rewrite inject_Z_plus, inject_Z_opp, inject_Z_mult.
      change (inject_Z 60) with 60. lra.
    - unfold Z.sub. rewrite !inject_Z_plus, inject_Z_opp, inject_Z_mult.
      change (inject_Z 60) with 60. change (inject_Z 1) with 1. lra. }
  assert (Hrange : (0 <= f - 60 * m < 60)%Z).
  { split.
    - assert ((60 * m <= f)%Z); [| lia].
      rewrite <- (Qround.Qfloor_Z (60 * m)). apply Qround.Qfloor_resp_le. exact Hlo.
    - assert ((f < 60 * m + 60)%Z); [| lia].
      rewrite Zlt_Qlt. eapply Qle_lt_trans; eassumption. }
  exists m, (f - 60 * m)%Z.
  assert (Heq : _format_timestamp seconds
                = (format_02d m ++ ":" ++ format_02d (f - 60 * m))%string).
  { unfold _format_timestamp. cbv zeta. now rewrite Hminutes, Hsecs. }
  split; [exact Heq|]. split; [exact Hrange|]. split; [lia|].
  split; [apply format_02d_two_digits; lia|].
  intros H6000. rewrite Heq, !slength_append.
  rewrite !format_02d_two_digits; [reflexivity | lia |].
  split; [exact Hm0|].
  assert ((60 * m < 6000)%Z); [| lia].
  rewrite Zlt_Qlt. eapply Qle_lt_trans; [exact Hlo | exact H6000].
Qed.

(** Outside that range the rounding shows: a time just below 0 is printed
    with 60 seconds, and the minutes of a very long time are a rounded
    quotient. *)
Example format_timestamp_just_below_zero :
  _format_timestamp (- (1 # 2 ^ 70)) = "-1:60"%string.
Proof. vm_compute. reflexivity. Qed.

Example format_timestamp_rounded_minutes :
  _format_timestamp (inject_Z (10 ^ 20)) = "1666666666666666752:40"%string.
Proof. vm_compute. reflexivity. Qed.

End Timestamps.

(** * The commands of main.py *)

Section Commands.

Import Main.

Lemma prefix_app (p s : string) :
  String.prefix p s = true -> exists rest, s = (p ++ rest)%string.
Proof.
  revert s. induction p as [|c p IH]; intros s H.
  - exists s. reflexivity.
  - destruct s as [|c' s]; [discriminate|]. simpl in H.
    destruct (ascii_dec c c') as [<- | ]; [| discriminate].
    destruct (IH s H) as [rest ->]. exists rest. reflexivity.
Qed.

(** X17. The two usage messages of the loop are never printed: a command
    that starts with ["video "] or ["search "] always splits into two
    parts. *)
Theorem dispatch_usage_unreachable (line : string) :
  dispatch line <> VideoUsage /\ dispatch line <> SearchUsage.
Proof.
  unfold dispatch. cbv zeta.
  destruct (_ || _)%bool; [split; discriminate|].
  destruct (String.eqb _ "help"); [split; discriminate|].
  destruct (String.eqb _ "list"); [split; discriminate|].
  destruct (String.prefix "video " (lower (strip line))) eqn:Ev.
  { apply prefix_app in Ev. destruct Ev as [rest ->]. simpl. split; discriminate. }
  destruct (String.prefix "search " (lower (strip line))) eqn:Es.
  { apply prefix_app in Es. destruct Es as [rest ->]. simpl. split; discriminate. }
  split; discriminate.
Qed.

Lemma lower_ascii_not_upper (c : ascii) : is_upper (lower_ascii c) = false.
Proof.
  destruct c as [[] [] [] [] [] [] [] []]; reflexivity.
Qed.

Lemma lower_ascii_isspace (c : ascii) : isspace (lower_ascii c) = isspace c.
Proof.
  destruct c as [[] [] [] [] [] [] [] []]; reflexivity.
Qed.

Lemma has_upper_lower (s : string) : has_upper (lower s) = false.
Proof.
  induction s as [|c s IH]; [reflexivity|].
  simpl. now rewrite lower_ascii_not_upper, IH.
Qed.

Lemma has_upper_app (a b : string) :
  has_upper (a ++ b) = has_upper a || has_upper b.
Proof.
  induction a as [|c a IH]; [reflexivity|]. simpl. now rewrite IH, orb_assoc.
Qed.

Lemma lower_empty (s : string) : lower s = EmptyString -> s = EmptyString.
Proof. destruct s; [reflexivity | discriminate]. Qed.

Lemma rstrip_lower (s : string) : rstrip (lower s) = lower (rstrip s).
Proof.
  induction s as [|c s IH]; [reflexivity|].
  simpl. rewrite IH, lower_ascii_isspace.
  destruct (rstrip s) as [|c' r] eqn:E; simpl.
  - destruct (isspace c); reflexivity.
  - reflexivity.
Qed.

(** A string that [rstrip] leaves alone, and what is behind a prefix of
    it. *)
Lemma rstrip_fixed_cons (c : ascii) (s : string) :
  rstrip (String c s) = String c s -> s <> EmptyString -> rstrip s = s.
Proof.
  simpl. destruct (rstrip s) as [|c' r] eqn:E.
  - destruct (isspace c); intros H Hne; [discriminate|].
    injection H as <-. congruence.
  - intros H _. now injection H.
Qed.

Lemma rstrip_fixed_app (p a : string) :
  rstrip (p ++ a) = (p ++ a)%string -> a <> EmptyString -> rstrip a = a.
Proof.
  induction p as [|c p IH]; intros H Hne; [exact H|].
  apply IH; [| exact Hne].
  apply (rstrip_fixed_cons c); [exact H|].
  destruct p; [exact Hne | discriminate].
Qed.

Lemma rstrip_idempotent (s : string) : rstrip (rstrip s) = rstrip s.
Proof.
  induction s as [|c s IH]; [reflexivity|].
  simpl. destruct (rstrip s) as [|c' r] eqn:E.
  - destruct (isspace c) eqn:Ec; [reflexivity|]. simpl. now rewrite Ec.
  - change (rstrip (String c (String c' r)))
      with (match rstrip (String c' r) with
            | EmptyString => if isspace c then EmptyString else String c EmptyString
            | String a r' => String c (String a r')
            end).
    now rewrite IH.
Qed.

Lemma rstrip_lstrip (s : string) : rstrip (lstrip s) = lstrip (rstrip s).
Proof.
  induction s as [|c s IH]; [reflexivity|].
  simpl lstrip at 1. destruct (isspace c) eqn:Ec.
  - rewrite IH. simpl rstrip. destruct (rstrip s) as [|c' r] eqn:E.
    + rewrite Ec. reflexivity.
    + simpl. now rewrite Ec.
  - simpl rstrip. destruct (rstrip s) as [|c' r] eqn:E.
    + rewrite Ec. simpl. now rewrite Ec.
    + simpl. now rewrite Ec.
Qed.

Lemma rstrip_strip (s : string) : rstrip (strip s) = strip s.
Proof.
  unfold strip. now rewrite rstrip_lstrip, rstrip_idempotent.
Qed.

(** The command as the tests see it has no trailing white space and no
    capital letter. *)
Lemma command_normal (line : string) :
  rstrip (lower (strip line)) = lower (strip line)
  /\ has_upper (lower (strip line)) = false.
Proof.
  split; [| apply has_upper_lower].
  now rewrite rstrip_lower, rstrip_strip.
Qed.

Lemma argument_normal (p arg : string) (line : string) :
  lower (strip line) = (p ++ arg)%string ->
  rstrip (p ++ EmptyString) <> (p ++ EmptyString)%string ->
  arg <> EmptyString /\ has_upper arg = false /\ rstrip arg = arg.
Proof.
  intros Hcmd Hp. destruct (command_normal line) as [Hr Hu].
  rewrite Hcmd in Hr, Hu.
  assert (Hne : arg <> EmptyString) by (intros ->; contradiction).
  split; [exact Hne|]. split.
  - rewrite has_upper_app in Hu. apply orb_false_iff in Hu. tauto.
  - eapply rstrip_fixed_app; eassumption.
Qed.

(** X18. The video id that the [video] command looks up, and the query
    that the [search] command passes on, are what follows the first space of
    the stripped, lower-cased input: never empty, without capital letters and
    without trailing white space. *)
Theorem dispatch_argument (line arg : string) :
  dispatch line = Video arg \/ dispatch line = Search arg ->
  (lower (strip line) = ("video " ++ arg)%string
   \/ lower (strip line) = ("search " ++ arg)%string)
  /\ arg <> EmptyString
  /\ has_upper arg = false
  /\ rstrip arg = arg.
Proof.
  unfold dispatch. cbv zeta.
  destruct (_ || _)%bool; [intros [H|H]; discriminate|].
  destruct (String.eqb _ "help"); [intros [H|H]; discriminate|].
  destruct (String.eqb _ "list"); [intros [H|H]; discriminate|].
  destruct (String.prefix "video " (lower (strip line))) eqn:Ev.
  { apply prefix_app in Ev. destruct Ev as [rest Ev]. rewrite Ev. simpl.
    intros [H|H]; [| discriminate]. injection H as ->.
    split; [left; reflexivity|].
    apply (argument_normal "video " arg line Ev). simpl. discriminate. }
  destruct (String.prefix "search " (lower (strip line))) eqn:Es.
  { apply prefix_app in Es. destruct Es as [rest Es]. rewrite Es. simpl.
    intros [H|H]; [discriminate|]. injection H as ->.
    split; [right; reflexivity|].
    apply (argument_normal "search " arg line Es). simpl. discriminate. }
  intros [H|H]; discriminate.
Qed.

End Commands.

Section Lookups.

Import VideoSearchEngine.

Context {ties : faiss.TieOrder}.

Lemma search_by_video_keeps_engine (self : t) (vid query : string) (k : Z) :
  fst (search_by_video vid query k self) = self.
Proof.
  unfold search_by_video. run_engine.
  destruct (negb (truthy (video_chunks_of vid (chunks self)))); [reflexivity|].
  destruct (dimension self) as [dim|]; [| reflexivity].
  destruct (truthy (filter has_embedding _)); simpl.
  - destruct (np_array _); simpl; [| reflexivity].
    destruct (faiss.add _ _); [| reflexivity].
    destruct (faiss.search _ _ k); [apply collect_state | reflexivity].
  - destruct (faiss.search _ _ k); [apply collect_state | reflexivity].
Qed.

(** X19. After a batch without embedded chunks on a new engine, [search]
    returns the empty list, [get_video_summary] has a summary for each video
    of the batch, and [search_by_video] for such a video raises [TypeError]:
    the temporary index is built from [self.dimension], which is still
    [None]. *)
Theorem unembedded_only_engine
    (model : string -> ndarray) (batch : list TranscriptChunk)
    (c : TranscriptChunk) (query : string) (k : Z) :
  Forall (fun c => embedding c = None) batch ->
  In c batch ->
  search query k (fst (add_chunks batch (init model)))
  = (fst (add_chunks batch (init model)), Ok [])
  /\ search_by_video (video_id c) query k (fst (add_chunks batch (init model)))
     = (fst (add_chunks batch (init model)), Raise TypeError)
  /\ exists s, snd (get_video_summary (video_id c)
                      (fst (add_chunks batch (init model)))) = Ok (Some s).
Proof.
  intros Hall Hc.
  assert (Hf : filter has_embedding batch = []).
  { clear Hc. induction Hall as [|c0 cs Hc0 _ IH]; [reflexivity|].
    simpl. unfold has_embedding at 1. rewrite Hc0. simpl. exact IH. }
  assert (Hadd : fst (add_chunks batch (init model)) = mkEngine model batch None None).
  { rewrite add_chunks_steps, Hf. unfold initialised. rewrite Hf. reflexivity. }
  rewrite Hadd.
  assert (Hvc : video_chunks_of (video_id c) batch <> []).
  { intros E. assert (Hin : In c (video_chunks_of (video_id c) batch)).
    { unfold video_chunks_of. apply filter_In. split; [exact Hc|].
      apply String.eqb_refl. }
    rewrite E in Hin. destruct Hin. }
  split; [| split].
  - unfold search. run_engine. now rewrite orb_true_r.
  - unfold search_by_video. run_engine.
    apply truthy_true in Hvc. now rewrite Hvc.
  - unfold get_video_summary. run_engine.
    destruct (video_chunks_of (video_id c) batch); [congruence|].
    simpl. eexists. reflexivity.
Qed.

(** X20. On a well-formed engine, [search_by_video] for a video with chunks,
    [top_k > 0] and a query vector of the engine's width leaves the engine as
    it is, does not raise, and returns exactly [top_k] records of that
    video. *)
Theorem search_by_video_well_formed
    (self : t) (vid query : string) (k : Z) (dim : nat) :
  well_formed self ->
  dimension self = Some dim ->
  length (embedding_model self query) = dim ->
  video_chunks_of vid (chunks self) <> [] ->
  (0 < k)%Z ->
  exists rs,
    search_by_video vid query k self = (self, Ok rs)
    /\ length rs = Z.to_nat k
    /\ Forall (fun r => r_video_id r = vid) rs.
Proof.
  intros [Hstep [ix [Hix [Hdim Hwidth]]]] Hd Hq Hne Hk.
  unfold in_step, vectors in Hstep. rewrite Hix in Hstep.
  apply in_step_vectors in Hstep. destruct Hstep as [Hxb Hall].
  assert (Hd' : faiss.d ix = dim) by congruence.
  set (cs := video_chunks_of vid (chunks self)) in *.
  assert (Hsub : Forall (fun c => has_embedding c = true) cs).
  { apply Forall_forall. intros c Hc. rewrite Forall_forall in Hall.
    apply Hall. eapply incl_filter. exact Hc. }
  assert (Hvec : Forall (fun v => length v = dim) (map vector_of cs)).
  { apply Forall_forall. intros v Hv. apply in_map_iff in Hv.
    destruct Hv as [c [<- Hc]]. rewrite Forall_forall in Hwidth.
    rewrite <- Hd'. apply Hwidth. rewrite Hxb. apply in_map.
    eapply incl_filter. exact Hc. }
  destruct (embeddings_of_embedded cs Hsub) as [Hvalid Hemb].
  assert (Hadd : faiss.add (faiss.new dim) (map vector_of cs)
                 = Ok (faiss.mkIndex dim (map vector_of cs))).
  { unfold faiss.add. destruct (map vector_of cs) as [|r rs] eqn:E.
    - destruct cs; [congruence | discriminate].
    - inversion Hvec as [|? ? Hr _]. simpl.
      apply Nat.eqb_eq in Hr. now rewrite Hr. }
  rewrite (surjective_pairing (search_by_video vid query k self)),
    search_by_video_keeps_engine.
  unfold search_by_video.
  unfold bind, get, lift, ret, raise. cbv beta iota zeta. fold cs.
  pose proof Hne as Ht. apply truthy_true in Ht. rewrite Ht, Hd.
  rewrite Hvalid, Ht, Hemb, (np_array_uniform dim) by exact Hvec.
  rewrite Hadd. change (negb true) with false. cbv beta iota.
  unfold faiss.search. simpl faiss.d.
  apply Nat.eqb_eq in Hq. rewrite Hq.
  apply Z.ltb_lt in Hk. rewrite Hk. simpl negb. cbv iota.
  simpl fst. simpl snd. rewrite combine_fst_snd.
  set (hits := faiss.top (Z.to_nat k)
                 (faiss.ranked
                    (faiss.arranged k
                       (faiss.scored (faiss.mkIndex dim (map vector_of cs))
                                     (embedding_model self query))))).
  destruct (collect_in_range cs hits [] self) as [rs Hrs].
  { assert (Hlen : (0 < length cs)%nat).
    { destruct cs; [congruence | simpl; lia]. }
    eapply Forall_impl;
      [| apply (top_labels _ _ (Z.of_nat (length cs)));
         [lia | apply ranked_Forall, arranged_Forall]].
    - simpl. intros h Hh. lia.
    - pose proof (scored_labels (faiss.mkIndex dim (map vector_of cs))
                                (embedding_model self query)) as Hl.
      simpl in Hl. now rewrite length_map in Hl. }
  exists rs. rewrite Hrs. split; [reflexivity|]. split.
  - apply collect_length in Hrs. rewrite Hrs. simpl. apply top_length.
  - eapply collect_Forall; [| constructor | exact Hrs].
    intros c score Hc. simpl. eapply video_chunks_of_id. exact Hc.
Qed.




End Lookups.

(** * Instances

    The searches of the instances run with the tie order of the
    specification, the earlier position first. *)

Section Instances.

Local Existing Instance faiss.earlier_first.



Lemma search_ranks_corpus_witness :
  (well_formed engine_001
   /\ E.dimension engine_001 = Some 3%nat
   /\ length (E.embedding_model engine_001 "linear") = 3%nat
   /\ (0 < 2 <= Z.of_nat (length (E.chunks engine_001)))%Z)
  /\ exists ranking,
       Permutation ranking
                   (map (chunk_score (E.embedding_model engine_001 "linear"))
                        (E.chunks engine_001))
       /\ descending ranking
       /\ E.search "linear" 2 engine_001
          = (engine_001, Ok (map record_of (firstn (Z.to_nat 2) ranking))).
Proof.
  assert (Hk : (0 < 2 <= Z.of_nat (length (E.chunks engine_001)))%Z)
    by (simpl; lia).
  split; [split; [exact engine_001_well_formed |
                  split; [reflexivity | split; [reflexivity | exact Hk]]] |].
  apply (search_ranks_corpus engine_001 "linear" 2 3 engine_001_well_formed
           eq_refl eq_refl Hk).
Defined.


Lemma dimension_never_changes_witness :
  (reachable demo_model engine_001 /\ E.dimension engine_001 = Some 3%nat)
  /\ E.dimension (fst (E.add_chunks [chunk_short_vector] engine_001)) = Some 3%nat
  /\ exists ix, E.index (fst (E.add_chunks [chunk_short_vector] engine_001)) = Some ix
                /\ faiss.d ix = 3%nat.
Proof.
  assert (Hr : reachable demo_model engine_001)
    by (apply reachable_add; apply reachable_init).
  split; [split; [exact Hr | reflexivity]|].
  apply (dimension_never_changes demo_model engine_001 3 [chunk_short_vector] Hr eq_refl).
Defined.

Lemma add_chunks_unembedded_witness :
  Forall (fun c => embedding c = None) [chunk_plain]
  /\ E.add_chunks [chunk_plain] engine_001
     = (E.mkEngine (E.embedding_model engine_001) (E.chunks engine_001 ++ [chunk_plain])
                   (E.index engine_001) (E.dimension engine_001),
        Ok tt).
Proof.
  assert (H : Forall (fun c => embedding c = None) [chunk_plain])
    by (repeat constructor).
  split; [exact H|].
  apply (add_chunks_unembedded engine_001 [chunk_plain] H).
Defined.

Lemma chunk_counts_add_up_witness :
  snd (E.get_all_videos mock_engine) = Ok ["video_001"; "video_002"; "video_003"]%string
  /\ list_sum (map (count_of mock_engine) ["video_001"; "video_002"; "video_003"]%string)
     = length (E.chunks mock_engine).
Proof.
  assert (H : snd (E.get_all_videos mock_engine)
              = Ok ["video_001"; "video_002"; "video_003"]%string)
    by (vm_compute; reflexivity).
  split; [exact H|].
  apply (chunk_counts_add_up mock_engine _ H).
Defined.

Lemma add_chunks_videos_witness :
  (snd (E.get_all_videos engine_001) = Ok ["video_001"%string]
   /\ snd (E.get_all_videos (fst (E.add_chunks [chunk_plain] engine_001)))
      = Ok ["video_001"; "video_002"]%string)
  /\ (forall v, In v ["video_001"; "video_002"]%string
                <-> In v ["video_001"%string]
                    \/ exists c, In c [chunk_plain] /\ video_id c = v)
  /\ (length ["video_001"%string] <= length ["video_001"; "video_002"]%string)%nat
  /\ ((forall c, In c [chunk_plain] -> In (video_id c) ["video_001"%string]) ->
      length ["video_001"; "video_002"]%string = length ["video_001"%string]).
Proof.
  assert (H1 : snd (E.get_all_videos engine_001) = Ok ["video_001"%string])
    by reflexivity.
  assert (H2 : snd (E.get_all_videos (fst (E.add_chunks [chunk_plain] engine_001)))
               = Ok ["video_001"; "video_002"]%string) by reflexivity.
  split; [split; assumption|].
  apply (add_chunks_videos engine_001 [chunk_plain] _ _ H1 H2).
Defined.

Lemma dispatch_argument_witness :
  Main.dispatch "  Video Video_001  " = Main.Video "video_001"
  /\ (Main.lower (strip "  Video Video_001  ") = ("video " ++ "video_001")%string
      \/ Main.lower (strip "  Video Video_001  ") = ("search " ++ "video_001")%string)
  /\ "video_001"%string <> EmptyString
  /\ has_upper "video_001" = false
  /\ rstrip "video_001" = "video_001"%string.
Proof.
  assert (H : Main.dispatch "  Video Video_001  " = Main.Video "video_001")
    by reflexivity.
  split; [exact H|].
  apply (dispatch_argument "  Video Video_001  " "video_001"). left. exact H.
Defined.

Lemma unembedded_only_engine_witness :
  (Forall (fun c => embedding c = None) [chunk_plain] /\ In chunk_plain [chunk_plain])
  /\ E.search "deep" 3 (fst (E.add_chunks [chunk_plain] (E.init demo_model)))
     = (fst (E.add_chunks [chunk_plain] (E.init demo_model)), Ok [])
  /\ E.search_by_video (video_id chunk_plain) "deep" 3
       (fst (E.add_chunks [chunk_plain] (E.init demo_model)))
     = (fst (E.add_chunks [chunk_plain] (E.init demo_model)), Raise TypeError)
  /\ exists s, snd (E.get_video_summary (video_id chunk_plain)
                      (fst (E.add_chunks [chunk_plain] (E.init demo_model))))
               = Ok (Some s).
Proof.
  assert (H1 : Forall (fun c => embedding c = None) [chunk_plain])
    by (repeat constructor).
  assert (H2 : In chunk_plain [chunk_plain]) by (left; reflexivity).
  split; [split; assumption|].
  apply (unembedded_only_engine demo_model [chunk_plain] chunk_plain "deep" 3 H1 H2).
Defined.

Lemma search_by_video_well_formed_witness :
  (well_formed engine_001
   /\ E.dimension engine_001 = Some 3%nat
   /\ length (E.embedding_model engine_001 "linear") = 3%nat
   /\ E.video_chunks_of "video_001" (E.chunks engine_001) <> []
   /\ (0 < 5)%Z)
  /\ exists rs,
       E.search_by_video "video_001" "linear" 5 engine_001 = (engine_001, Ok rs)
       /\ length rs = Z.to_nat 5
       /\ Forall (fun r => r_video_id r = "video_001"%string) rs.
Proof.
  assert (Hne : E.video_chunks_of "video_001" (E.chunks engine_001) <> [])
    by (vm_compute; discriminate).
  assert (Hk : (0 < 5)%Z) by lia.
  split; [split; [exact engine_001_well_formed |
                  split; [reflexivity |
                          split; [reflexivity | split; [exact Hne | exact Hk]]]] |].
  apply (search_by_video_well_formed engine_001 "video_001" "linear" 5 3
           engine_001_well_formed eq_refl eq_refl Hne Hk).
Defined.

Example engine_two_videos_well_formed : well_formed engine_two_videos.
Proof.
  split; [reflexivity|].
  eexists. split; [reflexivity|]. split; [reflexivity|].
  repeat constructor.
Qed.

Lemma search_by_video_consistent_witness :
  (well_formed engine_two_videos
   /\ E.dimension engine_two_videos = Some 3%nat
   /\ length (E.embedding_model engine_two_videos "basics") = 3%nat
   /\ (0 < 2 <= Z.of_nat (length (E.video_chunks_of "video_001"
                                     (E.chunks engine_two_videos))))%Z
   /\ distinct_scores (E.embedding_model engine_two_videos "basics")
                      (E.video_chunks_of "video_001" (E.chunks engine_two_videos)))
  /\ exists rs,
       snd (E.search "basics" (Z.of_nat (length (E.chunks engine_two_videos)))
                     engine_two_videos) = Ok rs
       /\ snd (E.search_by_video "video_001" "basics" 2 engine_two_videos)
          = Ok (firstn (Z.to_nat 2)
                       (filter (fun r => String.eqb (r_video_id r) "video_001") rs)).
Proof.
  assert (Hk : (0 < 2 <= Z.of_nat (length (E.video_chunks_of "video_001"
                                              (E.chunks engine_two_videos))))%Z)
    by (simpl; lia).
  assert (Hd : distinct_scores (E.embedding_model engine_two_videos "basics")
                 (E.video_chunks_of "video_001" (E.chunks engine_two_videos))).
  { unfold distinct_scores. vm_compute.
    constructor; [intros [E | []]; discriminate E|].
    constructor; [intros [] | constructor]. }
  split; [split; [exact engine_two_videos_well_formed |
                  split; [reflexivity |
                          split; [reflexivity | split; [exact Hk | exact Hd]]]] |].
  apply (search_by_video_consistent engine_two_videos "video_001" "basics" 2 3
           engine_two_videos_well_formed eq_refl eq_refl Hk Hd).
Defined.

Lemma search_by_video_filters_first_witness :
  (E.embeddings_of (E.video_chunks_of "video_001" (E.chunks engine_two_videos))
   = [1; 0; 0] :: [[0; 0; 1]]
   /\ E.dimension engine_two_videos = Some (length [1; 0; 0]))
  /\ E.search_by_video "video_001" "basics" 3 engine_two_videos
     = (engine_two_videos, query_scoped "video_001" "basics" 3 engine_two_videos).
Proof.
  split; [split; reflexivity|].
  apply (search_by_video_filters_first engine_two_videos "video_001" "basics" 3
           [1; 0; 0] [[0; 0; 1]] eq_refl eq_refl).
Defined.

Lemma format_timestamp_fields_witness :
  (0 <= 125 /\ 125 < inject_Z (2 ^ 53))
  /\ exists minutes secs : Z,
       E._format_timestamp 125
       = (format_02d minutes ++ ":" ++ format_02d secs)%string
       /\ (0 <= secs < 60)%Z
       /\ (60 * minutes + secs = Qround.Qfloor 125)%Z
       /\ String.length (format_02d secs) = 2%nat
       /\ (125 < 6000 -> String.length (E._format_timestamp 125) = 5%nat).
Proof.
  assert (H0 : 0 <= 125) by discriminate.
  assert (Hmax : 125 < inject_Z (2 ^ 53)) by reflexivity.
  split; [split; assumption|].
  apply (format_timestamp_fields 125 H0 Hmax).
Defined.

End Instances.
